(** * Balancer SDK: the Vault Model simulation layer

    A shallow embedding of

    - [balancer-js/src/modules/vaultModel/vaultModel.module.ts]
      ([ActionType], [Requests], [VaultModel] with [updateDeltas],
      [multicall] and the four static mapping helpers), and
    - the exit concern [StablePhantomPoolExit],

    together with the properties the design document states about them.

    Conventions.  A JavaScript exception is a value of [Exception]; a call
    that may throw returns an [Outcome].  ethers' [BigNumber] is an
    arbitrary-precision integer and is modelled by [Z].  A
    [Record<string, BigNumber>] is a [gmap string Z] together with the
    property names every plain object inherits from [Object.prototype].
    [async]/[await] is modelled sequentially: one [multicall] runs from
    its first statement to its [return] or to the first exception. *)

From Stdlib Require Import ZArith DecimalString DecimalZ DecimalPos.
From stdpp Require Import gmap strings list fin_maps.

Open Scope string_scope.
Open Scope Z_scope.
Open Scope list_scope.

(** ** Exceptions and outcomes *)

Definition Address := string.
Definition Ref := string.

(** [Error] is JavaScript's [new Error(message)], [TypeError] the error the
    runtime raises on a property access on [undefined] or on a call of a
    non-function, [InvalidBigNumber] the argument error of ethers'
    [BigNumber.from].  The remaining constructors are the error kinds of the
    simulation core. *)
Inductive Exception : Type :=
| Error (message : string)
| TypeError
| InvalidBigNumber
| DataSourceError
| PoolNotFoundError (poolId : string)
| UnresolvedReferenceError (ref : Ref)
| DuplicateReferenceError (ref : Ref)
| IndexOutOfRangeError
| UnsupportedActionError
| MathError (poolId : string).

Inductive Outcome (A : Type) : Type :=
| Returned (a : A)
| Thrown (e : Exception).
Arguments Returned {A} a.
Arguments Thrown {A} e.

#[global] Instance Outcome_ret : MRet Outcome := @Returned.
#[global] Instance Outcome_bind : MBind Outcome := fun A B f o =>
  match o with
  | Returned a => f a
  | Thrown e => Thrown e
  end.

Definition returns {A} (o : Outcome A) : bool :=
  match o with Returned _ => true | Thrown _ => false end.

(** ** StablePhantomPoolExit *)

Module StablePhantomPoolExit.
Section Concern.
(** The pool entity and the attribute records are declared in [../types];
    no method below inspects or builds one. *)
Variables Pool ExitExactBPTInAttributes ExitExactTokensOutAttributes : Type.

Record ExitExactBPTInParameters := {
  bptIn_exiter : string;
  bptIn_pool : Pool;
  bptIn_bptIn : string;
  bptIn_slippage : string;
  bptIn_shouldUnwrapNativeAsset : bool;
  bptIn_wrappedNativeAsset : string;
  bptIn_singleTokenOut : option string
}.

Record ExitExactTokensOutParameters := {
  tokensOut_exiter : string;
  tokensOut_pool : Pool;
  tokensOut_tokensOut : list string;
  tokensOut_amountsOut : list string;
  tokensOut_slippage : string;
  tokensOut_wrappedNativeAsset : string
}.

(** [Pick<ExitExactBPTInParameters, 'exiter' | 'pool' | 'bptIn' | 'slippage'>] *)
Record RecoveryExitParameters := {
  recovery_exiter : string;
  recovery_pool : Pool;
  recovery_bptIn : string;
  recovery_slippage : string
}.

Definition buildExitExactBPTIn (_ : ExitExactBPTInParameters)
  : Outcome ExitExactBPTInAttributes :=
  Thrown (Error "Exit type not supported").

Definition buildExitExactTokensOut (_ : ExitExactTokensOutParameters)
  : Outcome ExitExactTokensOutAttributes :=
  Thrown (Error "Exit type not supported").

Definition buildRecoveryExit (_ : RecoveryExitParameters)
  : Outcome ExitExactBPTInAttributes :=
  Thrown (Error "Exit type not supported").
End Concern.
End StablePhantomPoolExit.

(** ** Requests *)

(** [export enum ActionType { BatchSwap, Join, Exit, Swap }]: a numeric
    enum, so at run time a tag is a number and [===] compares numbers. *)
Module ActionType.
Definition BatchSwap : Z := 0.
Definition Join : Z := 1.
Definition Exit : Z := 2.
Definition Swap : Z := 3.

Definition recognized (tag : Z) : bool :=
  bool_decide (tag = BatchSwap ∨ tag = Join ∨ tag = Exit ∨ tag = Swap).
End ActionType.

(** Modelled from the spec: the components of the four request shapes,
    declared in [./poolModel/swap], [./poolModel/join] and
    [./poolModel/exit], whose sources are not included.  An amount is either
    known when the batch is built or is itself an output reference; a swap
    names its pool, the asset paid in, the asset received and the amount;
    the step of a batch swap names its assets by their index in the list of
    assets of the request. *)
Inductive Amount : Type :=
| Known (value : Z)
| Chained (ref : Ref).

Record FundManagement := {
  sender : Address;
  recipient : Address
}.

Record SingleSwap := {
  poolId : string;
  assetIn : Address;
  assetOut : Address;
  amount : Amount
}.

Record BatchSwapStep := {
  step_poolId : string;
  assetInIndex : nat;
  assetOutIndex : nat;
  step_amount : Amount
}.

Inductive SwapType : Type := SwapExactIn | SwapExactOut.

(** The four request shapes; the field names are those of the object
    literals in the mapping helpers. *)
Record SwapRequest := {
  swap_actionType : Z;
  swap_request : SingleSwap;
  swap_funds : FundManagement;
  swap_outputReference : Ref
}.

Record BatchSwapRequest := {
  batch_actionType : Z;
  batch_swaps : list BatchSwapStep;
  batch_assets : list Address;
  batch_funds : FundManagement;
  batch_swapType : SwapType;
  batch_outputReferences : list Ref
}.

Record JoinPoolRequest := {
  join_actionType : Z;
  join_poolId : string;
  join_encodedUserData : string;
  join_outputReference : Ref
}.

Record ExitPoolRequest := {
  exit_actionType : Z;
  exit_poolId : string;
  exit_encodedUserData : string;
  exit_outputReferences : list Ref
}.

(** [export type Requests = BatchSwapRequest | JoinPoolRequest |
    ExitPoolRequest | SwapRequest] *)
Inductive Requests : Type :=
| OfBatchSwap (call : BatchSwapRequest)
| OfJoin (call : JoinPoolRequest)
| OfExit (call : ExitPoolRequest)
| OfSwap (call : SwapRequest).

(** [call.actionType] *)
Definition actionType (call : Requests) : Z :=
  match call with
  | OfBatchSwap c => batch_actionType c
  | OfJoin c => join_actionType c
  | OfExit c => exit_actionType c
  | OfSwap c => swap_actionType c
  end.

(** [call.assets] and [call.request]: [None] is JavaScript's [undefined],
    the value of a property the object does not have. *)
Definition assets (call : Requests) : option (list Address) :=
  match call with
  | OfBatchSwap c => Some (batch_assets c)
  | _ => None
  end.

Definition request (call : Requests) : option SingleSwap :=
  match call with
  | OfSwap c => Some (swap_request c)
  | _ => None
  end.

(** ** Descriptors of the transaction-encoding layer

    [Swap], [EncodeBatchSwapInput], [EncodeJoinPoolInput] and
    [EncodeExitPoolInput] are declared in [../swaps/types] and
    [../relayer/types]; the records below carry the fields the mapping
    helpers read. *)
Record Swap := {
  Swap_request : SingleSwap;
  Swap_funds : FundManagement;
  Swap_outputReference : Ref
}.

Record EncodeBatchSwapInput := {
  ebs_swapType : SwapType;
  ebs_swaps : list BatchSwapStep;
  ebs_assets : list Address;
  ebs_funds : FundManagement;
  ebs_outputReferences : list Ref
}.

Record JoinPoolRequestData := { join_userData : string }.
Record ExitPoolRequestData := { exit_userData : string }.

Record EncodeJoinPoolInput := {
  ejp_poolId : string;
  ejp_joinPoolRequest : JoinPoolRequestData;
  ejp_outputReference : Ref
}.

Record EncodeExitPoolInput := {
  eep_poolId : string;
  eep_exitPoolRequest : ExitPoolRequestData;
  eep_outputReferences : list Ref
}.

(** ** The static mapping helpers *)

Definition mapSwapRequest (call : Swap) : SwapRequest :=
  {| swap_actionType := ActionType.Swap;
     swap_request := Swap_request call;
     swap_funds := Swap_funds call;
     swap_outputReference := Swap_outputReference call |}.

Definition mapBatchSwapRequest (call : EncodeBatchSwapInput) : BatchSwapRequest :=
  {| batch_actionType := ActionType.BatchSwap;
     batch_swaps := ebs_swaps call;
     batch_assets := ebs_assets call;
     batch_funds := ebs_funds call;
     batch_swapType := ebs_swapType call;
     batch_outputReferences := ebs_outputReferences call |}.

Definition mapJoinPoolRequest (call : EncodeJoinPoolInput) : JoinPoolRequest :=
  {| join_actionType := ActionType.Join;
     join_poolId := ejp_poolId call;
     join_encodedUserData := join_userData (ejp_joinPoolRequest call);
     join_outputReference := ejp_outputReference call |}.

Definition mapExitPoolRequest (call : EncodeExitPoolInput) : ExitPoolRequest :=
  {| exit_actionType := ActionType.Exit;
     exit_poolId := eep_poolId call;
     exit_encodedUserData := exit_userData (eep_exitPoolRequest call);
     exit_outputReferences := eep_outputReferences call |}.

(** ** Pools and the pool state source *)

(** Modelled from the spec: the pool entity, whose declaration is not
    included.  A pool is identified by its ID, has an ordered list of
    constituent tokens, a type tag and type-specific numeric parameters;
    [address] is the address of its share token (BPT). *)
Record Pool := {
  id : string;
  address : Address;
  tokens : list Address;
  poolType : string;
  parameters : list Z
}.

Abbreviation PoolDictionary := (gmap string Pool).

(** Modelled from the spec: the pool dictionary, a mapping from pool ID to
    pool built from the pools the data provider supplies. *)
Definition toDictionary (pools : list Pool) : PoolDictionary :=
  list_to_map ((fun pool => (id pool, pool)) <$> pools).

(** Modelled from the spec: the Pool State Source, [class PoolsSource] of
    [./poolSource], whose source is not included.  [poolsDict] is the cached
    dictionary, [None] until one has been built. *)
Record PoolsSource := {
  poolsDict : option PoolDictionary
}.

Definition PoolsSource_new : PoolsSource := {| poolsDict := None |}.

(** [class VaultModel { poolsSource: PoolsSource; ... }] *)
Record VaultModel := {
  poolsSource : PoolsSource
}.

Definition VaultModel_new : VaultModel := {| poolsSource := PoolsSource_new |}.

(** Modelled from the spec: the Relayer Ledger, [class RelayerModel] of
    [./relayer], whose source is not included: a store of values under
    symbolic slots, empty when constructed. *)
Abbreviation RelayerModel := (gmap Ref Z).

Definition RelayerModel_new : RelayerModel := ∅.

(** Modelled from the spec: the read of the ledger.  A read of an unset
    reference fails with [UnresolvedReferenceError]. *)
Definition read (ref : Ref) (ledger : RelayerModel) : Outcome Z :=
  match ledger !! ref with
  | Some value => Returned value
  | None => Thrown (UnresolvedReferenceError ref)
  end.

(** Modelled from the spec: the write of the ledger.  A reference is
    written at most once during a batch: a second write fails with
    [DuplicateReferenceError]. *)
Definition write (ref : Ref) (value : Z) (ledger : RelayerModel)
  : RelayerModel * Outcome unit :=
  match ledger !! ref with
  | Some _ => (ledger, Thrown (DuplicateReferenceError ref))
  | None => (<[ref := value]> ledger, Returned tt)
  end.

(** What one instance of [VaultModel] and its collaborators hold between
    two statements: the instance itself, the [RelayerModel] objects
    constructed so far (an object is its index in the list), and two
    counters kept for the statements about the data provider: the number of
    fetches issued to it and the number of dictionaries requested from the
    pool state source. *)
Record World := {
  this : VaultModel;
  relayers : list RelayerModel;
  fetches : nat;
  dictionaryRequests : nat
}.

Definition World_new : World :=
  {| this := VaultModel_new; relayers := []; fetches := 0%nat;
     dictionaryRequests := 0%nat |}.

Definition set_poolsDict (cache : option PoolDictionary) (w : World) : World :=
  {| this := {| poolsSource := {| poolsDict := cache |} |};
     relayers := relayers w;
     fetches := fetches w;
     dictionaryRequests := dictionaryRequests w |}.

Definition set_relayers (objects : list RelayerModel) (w : World) : World :=
  {| this := this w;
     relayers := objects;
     fetches := fetches w;
     dictionaryRequests := dictionaryRequests w |}.

Definition count_fetch (w : World) : World :=
  {| this := this w;
     relayers := relayers w;
     fetches := S (fetches w);
     dictionaryRequests := dictionaryRequests w |}.

Definition count_dictionaryRequest (w : World) : World :=
  {| this := this w;
     relayers := relayers w;
     fetches := fetches w;
     dictionaryRequests := S (dictionaryRequests w) |}.

(** Statements that read and update the [World] and may throw. *)
Definition Action (A : Type) : Type := World → World * Outcome A.

#[global] Instance Action_ret : MRet Action := fun A a w => (w, Returned a).
#[global] Instance Action_bind : MBind Action := fun A B f act w =>
  match act w with
  | (w', Returned a) => f a w'
  | (w', Thrown e) => (w', Thrown e)
  end.

Definition throw {A} (e : Exception) : Action A := fun w => (w, Thrown e).

(** ** Programs over the ledger *)

(** Modelled from the spec: what an operation of the Pool Operation
    Executor ([class PoolModel] of [./poolModel/poolModel], whose source is
    not included) may do.  It is pure, synchronous computation over the
    request and the pool dictionary that touches the ledger through [read]
    and [write] only: a tree of reads and writes that ends in a result or
    an exception. *)
Inductive Prog (A : Type) : Type :=
| Finish (a : A)
| Abort (e : Exception)
| GetRef (ref : Ref) (k : Z → Prog A)
| SetRef (ref : Ref) (value : Z) (k : Prog A).
Arguments Finish {A} a.
Arguments Abort {A} e.
Arguments GetRef {A} ref k.
Arguments SetRef {A} ref value k.

Fixpoint Prog_bind_def {A B} (f : A → Prog B) (p : Prog A) : Prog B :=
  match p with
  | Finish a => f a
  | Abort e => Abort e
  | GetRef ref k => GetRef ref (fun value => Prog_bind_def f (k value))
  | SetRef ref value k => SetRef ref value (Prog_bind_def f k)
  end.

#[global] Instance Prog_ret : MRet Prog := @Finish.
#[global] Instance Prog_bind : MBind Prog := @Prog_bind_def.

Fixpoint run {A} (p : Prog A) (ledger : RelayerModel) : RelayerModel * Outcome A :=
  match p with
  | Finish a => (ledger, Returned a)
  | Abort e => (ledger, Thrown e)
  | GetRef ref k =>
      match read ref ledger with
      | Returned value => run (k value) ledger
      | Thrown e => (ledger, Thrown e)
      end
  | SetRef ref value k =>
      match write ref value ledger with
      | (ledger', Returned _) => run k ledger'
      | (ledger', Thrown e) => (ledger', Thrown e)
      end
  end.

(** The reads and writes a program performs on a given ledger, in order,
    up to its end or its first exception. *)
Inductive Access : Type :=
| Reads (ref : Ref)
| Writes (ref : Ref) (value : Z).

Fixpoint accesses {A} (p : Prog A) (ledger : RelayerModel) : list Access :=
  match p with
  | Finish _ | Abort _ => []
  | GetRef ref k =>
      match read ref ledger with
      | Returned value => Reads ref :: accesses (k value) ledger
      | Thrown _ => []
      end
  | SetRef ref value k =>
      match write ref value ledger with
      | (ledger', Returned _) => Writes ref value :: accesses k ledger'
      | (_, Thrown _) => []
      end
  end.

(** The references among the writes of a list of accesses. *)
Definition written (acc : list Access) : list Ref :=
  omap (fun a => match a with Writes ref _ => Some ref | Reads _ => None end) acc.

(** The accesses and the outcome of a program whose reads are answered
    from [final], the ledger a whole batch leaves behind, and whose writes
    are taken for granted. *)
Fixpoint replay {A} (p : Prog A) (final : RelayerModel) : list Access * Outcome A :=
  match p with
  | Finish a => ([], Returned a)
  | Abort e => ([], Thrown e)
  | GetRef ref k =>
      match final !! ref with
      | Some value =>
          let '(acc, o) := replay (k value) final in (Reads ref :: acc, o)
      | None => ([], Thrown (UnresolvedReferenceError ref))
      end
  | SetRef ref value k =>
      let '(acc, o) := replay k final in (Writes ref value :: acc, o)
  end.

(** The four methods [multicall] calls on its [PoolModel], taken as a
    parameter; an instance holds the ledger it was constructed with. *)
Record Executor := {
  doJoin : Requests → PoolDictionary → Prog (list Address * list string);
  doExit : Requests → PoolDictionary → Prog (list Address * list string);
  doBatchSwap : Requests → PoolDictionary → Prog (list string);
  doSingleSwap : Requests → PoolDictionary → Prog (list string)
}.

Record PoolModel := {
  relayerModel : nat
}.

(** [new RelayerModel()] and [new PoolModel(relayerModel)] *)
Definition new_RelayerModel : Action nat := fun w =>
  (set_relayers (relayers w ++ [RelayerModel_new])%list w,
   Returned (length (relayers w))).

Definition new_PoolModel (relayerModel : nat) : PoolModel :=
  {| relayerModel := relayerModel |}.

(** A method call on [poolModel]: the program runs on the ledger object the
    instance holds and leaves its writes there. *)
Definition invoke {A} (poolModel : PoolModel) (p : Prog A) : Action A := fun w =>
  match relayers w !! relayerModel poolModel with
  | Some ledger =>
      let '(ledger', o) := run p ledger in
      (set_relayers (<[relayerModel poolModel := ledger']> (relayers w)) w, o)
  | None => (w, Thrown TypeError)
  end.

(** ** The Vault Model *)

(** The property names a plain object literal inherits from
    [Object.prototype]: for such a name [deltas[t]] is defined (and is not a
    [BigNumber]) although [deltas] has no entry of its own for it. *)
Definition inherited (t : string) : bool :=
  bool_decide (t ∈ ["constructor"; "hasOwnProperty"; "isPrototypeOf";
                    "propertyIsEnumerable"; "toLocaleString"; "toString";
                    "valueOf"; "__proto__"; "__defineGetter__";
                    "__defineSetter__"; "__lookupGetter__";
                    "__lookupSetter__"]).

(** The entry of [t], zero when there is none, grows by [value]. *)
Definition credit (t : Address) (value : Z) (deltas : gmap string Z) : gmap string Z :=
  <[t := default 0 (deltas !! t) + value]> deltas.

Section VaultModel.
(** ethers' [BigNumber.from] on a string; [None] when it throws. *)
Variable BigNumber_from : string → option Z.
(** The pool data service: its answer to the fetch number [n], [None]
    when it is unreachable or answers with malformed data. *)
Variable getPools : nat → option (list Pool).
(** The methods of [PoolModel]. *)
Variable executor : Executor.

(** Modelled from the spec: [PoolsSource.poolsDictionary(refresh)].  With
    [refresh] false and a dictionary already built, the cached dictionary
    is returned; otherwise the pools are fetched again, the dictionary is
    rebuilt and replaces the cache.  A failing fetch installs nothing. *)
Definition poolsDictionary (refresh : bool) : Action PoolDictionary := fun w =>
  let w := count_dictionaryRequest w in
  match refresh, poolsDict (poolsSource (this w)) with
  | false, Some dict => (w, Returned dict)
  | _, _ =>
      match getPools (fetches w) with
      | Some pools =>
          let dict := toDictionary pools in
          (set_poolsDict (Some dict) (count_fetch w), Returned dict)
      | None => (count_fetch w, Thrown DataSourceError)
      end
  end.

(** The callback of [assets.forEach] in [updateDeltas], at asset [t] with
    [amount = amounts[i]] ([None] when [i] is past the end of [amounts]).
    The object [deltas] is updated in place, so its contents are returned
    also when the callback throws. *)
Definition updateDelta (deltas : gmap string Z) (t : Address)
    (amount : option string) : gmap string Z * Outcome unit :=
  match deltas !! t with
  | None =>
      if inherited t then (deltas, Thrown TypeError)
      else
        match amount ≫= BigNumber_from with
        | Some value => (<[t := 0 + value]> deltas, Returned tt)
        | None => (<[t := 0]> deltas, Thrown InvalidBigNumber)
        end
  | Some current =>
      match amount ≫= BigNumber_from with
      | Some value => (<[t := current + value]> deltas, Returned tt)
      | None => (deltas, Thrown InvalidBigNumber)
      end
  end.

(** [assets.forEach((t, i) => ...)] from index [i] on. *)
Fixpoint updateDeltas_from (i : nat) (deltas : gmap string Z)
    (assets : list Address) (amounts : list string)
  : gmap string Z * Outcome unit :=
  match assets with
  | [] => (deltas, Returned tt)
  | t :: assets' =>
      match updateDelta deltas t (amounts !! i) with
      | (deltas', Returned _) => updateDeltas_from (S i) deltas' assets' amounts
      | (deltas', Thrown e) => (deltas', Thrown e)
      end
  end.

Definition updateDeltas (deltas : gmap string Z) (assets : list Address)
    (amounts : list string) : gmap string Z * Outcome unit :=
  updateDeltas_from 0 deltas assets amounts.

(** [this.updateDeltas(deltas, assets, amounts)] as a statement of
    [multicall], where [deltas] is a local object: when the call throws,
    the exception leaves [multicall] and the object is unreachable. *)
Definition updated (deltas : gmap string Z) (assets : list Address)
    (amounts : list string) : Outcome (gmap string Z) :=
  match updateDeltas deltas assets amounts with
  | (deltas', Returned _) => Returned deltas'
  | (_, Thrown e) => Thrown e
  end.

Definition lift {A} (o : Outcome A) : Action A := fun w => (w, o).

(** The body of [for (const call of rawCalls)]. *)
Definition multicall_body (poolModel : PoolModel) (pools : PoolDictionary)
    (deltas : gmap string Z) (call : Requests) : Action (gmap string Z) :=
  if actionType call =? ActionType.Join then
    '(tokens, amounts) ← invoke poolModel (doJoin executor call pools);
    lift (updated deltas tokens amounts)
  else if actionType call =? ActionType.Exit then
    '(tokens, amounts) ← invoke poolModel (doExit executor call pools);
    lift (updated deltas tokens amounts)
  else if actionType call =? ActionType.BatchSwap then
    swapDeltas ← invoke poolModel (doBatchSwap executor call pools);
    match assets call with
    | Some assets => lift (updated deltas assets swapDeltas)
    | None => throw TypeError
    end
  else
    swapDeltas ← invoke poolModel (doSingleSwap executor call pools);
    match request call with
    | Some request =>
        lift (updated deltas [assetOut request; assetIn request] swapDeltas)
    | None => throw TypeError
    end.

Fixpoint multicall_loop (poolModel : PoolModel) (pools : PoolDictionary)
    (deltas : gmap string Z) (rawCalls : list Requests)
  : Action (gmap string Z) :=
  match rawCalls with
  | [] => mret deltas
  | call :: rest =>
      deltas' ← multicall_body poolModel pools deltas call;
      multicall_loop poolModel pools deltas' rest
  end.

(** [async multicall(rawCalls, refresh = false)]; an omitted argument is
    [None]. *)
Definition multicall (rawCalls : list Requests) (refresh : option bool)
  : Action (gmap string Z) :=
  let refresh := default false refresh in
  relayerModel ← new_RelayerModel;
  let poolModel := new_PoolModel relayerModel in
  pools ← poolsDictionary refresh;
  let deltas : gmap string Z := ∅ in
  multicall_loop poolModel pools deltas rawCalls.

(** What the pool state source answers to a [multicall] entered in the
    world [w]. *)
Definition dictionary_obtained (refresh : option bool) (w : World)
  : Outcome PoolDictionary :=
  (poolsDictionary (default false refresh) (new_RelayerModel w).1).2.

(** *** The loop seen from the ledger

    What one request contributes: the token and amount sequences the
    body of the loop hands to [updateDeltas]. *)
Definition contribution (call : Requests) (pools : PoolDictionary)
  : Prog (list Address * list string) :=
  if actionType call =? ActionType.Join then doJoin executor call pools
  else if actionType call =? ActionType.Exit then doExit executor call pools
  else if actionType call =? ActionType.BatchSwap then
    swapDeltas ← doBatchSwap executor call pools;
    match assets call with
    | Some assets => Finish (assets, swapDeltas)
    | None => Abort TypeError
    end
  else
    swapDeltas ← doSingleSwap executor call pools;
    match request call with
    | Some request => Finish ([assetOut request; assetIn request], swapDeltas)
    | None => Abort TypeError
    end.

(** One turn of the loop on the contents of the ledger and of [deltas]. *)
Definition step (pools : PoolDictionary) (ledger : RelayerModel)
    (deltas : gmap string Z) (call : Requests)
  : RelayerModel * Outcome (gmap string Z) :=
  match run (contribution call pools) ledger with
  | (ledger', Returned (tokens, amounts)) => (ledger', updated deltas tokens amounts)
  | (ledger', Thrown e) => (ledger', Thrown e)
  end.

Fixpoint steps (pools : PoolDictionary) (ledger : RelayerModel)
    (deltas : gmap string Z) (rawCalls : list Requests)
  : RelayerModel * Outcome (gmap string Z) :=
  match rawCalls with
  | [] => (ledger, Returned deltas)
  | call :: rest =>
      match step pools ledger deltas call with
      | (ledger', Returned deltas') => steps pools ledger' deltas' rest
      | (ledger', Thrown e) => (ledger', Thrown e)
      end
  end.

(** The contributions of the requests of a batch, in order, up to the end
    of the batch or to the first request that throws. *)
Fixpoint contributions (pools : PoolDictionary) (ledger : RelayerModel)
    (rawCalls : list Requests) : list (list Address * list string) :=
  match rawCalls with
  | [] => []
  | call :: rest =>
      match run (contribution call pools) ledger with
      | (ledger', Returned c) => c :: contributions pools ledger' rest
      | (_, Thrown _) => []
      end
  end.

(** The ledger a request meets: the one the requests before it leave. *)
Definition ledger_after (pools : PoolDictionary) (rawCalls : list Requests)
  : RelayerModel :=
  (steps pools RelayerModel_new ∅ rawCalls).1.

(** The amount a contribution adds for the token [t], and the whole of a
    list of contributions. *)
Definition amount_for (t : Address) (c : list Address * list string) : Z :=
  foldr (fun '(t', a) total =>
           if decide (t' = t) then default 0 (BigNumber_from a) + total
           else total)
        0 (zip c.1 c.2).

Definition total_for (t : Address) (cs : list (list Address * list string)) : Z :=
  foldr (fun c total => amount_for t c + total) 0 cs.

Definition touches (t : Address) (c : list Address * list string) : bool :=
  bool_decide (t ∈ c.1).

(** The execution of a request fails with [e], on the ledger and the delta
    map the requests before it leave, when the operation of the executor
    throws [e], or when the operation completes and [updateDeltas] throws
    [e] on what it returns. *)
Inductive fails (pools : PoolDictionary) (ledger : RelayerModel)
    (deltas : gmap string Z) (call : Requests) (e : Exception) : Prop :=
| fails_in_the_operation :
    (run (contribution call pools) ledger).2 = Thrown e →
    fails pools ledger deltas call e
| fails_in_updateDeltas (tokens : list Address) (amounts : list string) :
    (run (contribution call pools) ledger).2 = Returned (tokens, amounts) →
    (updateDeltas deltas tokens amounts).2 = Thrown e →
    fails pools ledger deltas call e.
End VaultModel.

(** ** The Pool Operation Executor *)

(** Modelled from the spec: the interface of the Pool Math Provider, an
    external capability taken as a parameter.  It gives the numeric outcome
    of a join, an exit or a swap against a pool and reads the opaque user
    data of a join (the amounts put in, one per constituent token) and of an
    exit (the pool shares handed back); a failure of the provider is an
    exception that propagates unchanged. *)
Record PoolMath := {
  decodeJoin : Pool → string → Outcome (list Amount);
  decodeExit : Pool → string → Outcome Amount;
  onJoin : Pool → list Z → Outcome Z;
  onExit : Pool → Z → Outcome (list Z);
  onSwapExactIn : Pool → Address → Address → Z → Outcome Z;
  onSwapExactOut : Pool → Address → Address → Z → Outcome Z
}.

Section PoolModel.
Variable math : PoolMath.
(** [BigNumber.prototype.toString] *)
Variable BigNumber_toString : Z → string.

(** Modelled from the spec: the steps the four operations share.  An
    answer of the math provider is taken over, its exception included; an
    unknown pool ID fails with [PoolNotFoundError]; an amount that is itself
    an output reference is resolved from the ledger before computing; the
    i-th result is recorded under the i-th output reference. *)
Definition compute {A} (o : Outcome A) : Prog A :=
  match o with
  | Returned a => Finish a
  | Thrown e => Abort e
  end.

Definition findPool (pools : PoolDictionary) (poolId : string) : Prog Pool :=
  match pools !! poolId with
  | Some pool => Finish pool
  | None => Abort (PoolNotFoundError poolId)
  end.

Definition resolve (amount : Amount) : Prog Z :=
  match amount with
  | Known value => Finish value
  | Chained ref => GetRef ref Finish
  end.

Fixpoint resolveAll (amounts : list Amount) : Prog (list Z) :=
  match amounts with
  | [] => Finish []
  | amount :: rest =>
      value ← resolve amount;
      values ← resolveAll rest;
      Finish (value :: values)
  end.

Fixpoint recordAll (refs : list Ref) (values : list Z) : Prog unit :=
  match refs, values with
  | ref :: refs', value :: values' =>
      SetRef ref value (recordAll refs' values')
  | _, _ => Finish tt
  end.

(** Modelled from the spec: [PoolModel.doJoin].  The pool is looked up,
    the user data decoded, the math provider computes the pool shares
    minted, the result is written to the output reference, and the pairs
    returned are the net outflow of the constituent tokens and the inflow
    of pool shares.  An operation fails at once, with
    [UnsupportedActionError] and before it looks at anything else, on a
    request whose tag is not the operation's or whose shape is not the
    one the tag announces. *)
Definition PoolModel_doJoin (call : Requests) (pools : PoolDictionary)
  : Prog (list Address * list string) :=
  match call with
  | OfJoin j =>
      if join_actionType j =? ActionType.Join then
        pool ← findPool pools (join_poolId j);
        amounts ← compute (decodeJoin math pool (join_encodedUserData j));
        amountsIn ← resolveAll amounts;
        bptOut ← compute (onJoin math pool amountsIn);
        SetRef (join_outputReference j) bptOut
          (Finish ((tokens pool ++ [address pool])%list,
                   ((BigNumber_toString ∘ Z.opp <$> amountsIn)
                      ++ [BigNumber_toString bptOut])%list))
      else Abort UnsupportedActionError
  | _ => Abort UnsupportedActionError
  end.

(** Modelled from the spec: [PoolModel.doExit], symmetric to the join: the
    tokens released and the pool shares burned. *)
Definition PoolModel_doExit (call : Requests) (pools : PoolDictionary)
  : Prog (list Address * list string) :=
  match call with
  | OfExit e =>
      if exit_actionType e =? ActionType.Exit then
        pool ← findPool pools (exit_poolId e);
        shares ← compute (decodeExit math pool (exit_encodedUserData e));
        bptIn ← resolve shares;
        amountsOut ← compute (onExit math pool bptIn);
        recordAll (exit_outputReferences e) amountsOut;;
        Finish ((tokens pool ++ [address pool])%list,
                ((BigNumber_toString <$> amountsOut)
                   ++ [BigNumber_toString (- bptIn)])%list)
      else Abort UnsupportedActionError
  | _ => Abort UnsupportedActionError
  end.

(** Modelled from the spec: [PoolModel.doSingleSwap].  A request that is
    not tagged [Swap], or is not of the shape of a swap, fails at once.
    Otherwise the request's pool is resolved, the math provider computes
    the amount out, and exactly two entries are returned, for [assetOut]
    and [assetIn] in this order: the amount received with a positive sign,
    the amount paid with a negative sign. *)
Definition PoolModel_doSingleSwap (call : Requests) (pools : PoolDictionary)
  : Prog (list string) :=
  match call with
  | OfSwap s =>
      if swap_actionType s =? ActionType.Swap then
        let request := swap_request s in
        pool ← findPool pools (poolId request);
        amountIn ← resolve (amount request);
        amountOut ← compute (onSwapExactIn math pool (assetIn request)
                               (assetOut request) amountIn);
        SetRef (swap_outputReference s) amountOut
          (Finish [BigNumber_toString amountOut; BigNumber_toString (- amountIn)])
      else Abort UnsupportedActionError
  | _ => Abort UnsupportedActionError
  end.

(** Modelled from the spec: one step of a batch swap; [deltas] holds the
    signed amount accumulated so far for each asset of the request.  An
    asset index outside the list of assets fails with
    [IndexOutOfRangeError]; a step with a zero amount and no output
    reference is a no-op. *)
Definition batchSwapStep (pools : PoolDictionary) (swapType : SwapType)
    (assets : list Address) (deltas : list Z) (step : BatchSwapStep)
  : Prog (list Z) :=
  match assets !! assetInIndex step, assets !! assetOutIndex step with
  | Some tokenIn, Some tokenOut =>
      match step_amount step with
      | Known 0 => Finish deltas
      | given =>
          value ← resolve given;
          pool ← findPool pools (step_poolId step);
          '(amountIn, amountOut) ←
            match swapType with
            | SwapExactIn =>
                out ← compute (onSwapExactIn math pool tokenIn tokenOut value);
                Finish (value, out)
            | SwapExactOut =>
                paid ← compute (onSwapExactOut math pool tokenIn tokenOut value);
                Finish (paid, value)
            end;
          Finish (alter (fun d => d + amountOut) (assetOutIndex step)
                    (alter (fun d => d - amountIn) (assetInIndex step) deltas))
      end
  | _, _ => Abort IndexOutOfRangeError
  end.

Fixpoint batchSwapSteps (pools : PoolDictionary) (swapType : SwapType)
    (assets : list Address) (deltas : list Z) (steps : list BatchSwapStep)
  : Prog (list Z) :=
  match steps with
  | [] => Finish deltas
  | step :: rest =>
      deltas' ← batchSwapStep pools swapType assets deltas step;
      batchSwapSteps pools swapType assets deltas' rest
  end.

(** Modelled from the spec: [PoolModel.doBatchSwap].  One signed amount
    per asset of the request, zero for an asset no step touches; the
    final amounts are written to the output references. *)
Definition PoolModel_doBatchSwap (call : Requests) (pools : PoolDictionary)
  : Prog (list string) :=
  match call with
  | OfBatchSwap b =>
      if batch_actionType b =? ActionType.BatchSwap then
        deltas ← batchSwapSteps pools (batch_swapType b) (batch_assets b)
                   (replicate (length (batch_assets b)) 0) (batch_swaps b);
        recordAll (batch_outputReferences b) deltas;;
        Finish (BigNumber_toString <$> deltas)
      else Abort UnsupportedActionError
  | _ => Abort UnsupportedActionError
  end.

Definition PoolModel_methods : Executor :=
  {| doJoin := PoolModel_doJoin;
     doExit := PoolModel_doExit;
     doBatchSwap := PoolModel_doBatchSwap;
     doSingleSwap := PoolModel_doSingleSwap |}.
End PoolModel.

(** ** Notions for the reordering of a batch

    [final] stands for the ledger a batch leaves behind when it has
    executed.  A delta map is [plain] when it has no entry under a name
    inherited from [Object.prototype]; a contribution is [accepted] when
    [updateDeltas] merges it into every plain delta map.  [writes_of] lists
    the references a request writes when its reads are answered from
    [final], and a request is [replayable] when, so answered, it completes
    with an accepted contribution and writes what [final] holds. *)
Definition plain (deltas : gmap string Z) : Prop :=
  ∀ t, is_Some (deltas !! t) → inherited t = false.

Section Replayed.
Variable BigNumber_from : string → option Z.
Variable executor : Executor.
Variable pools : PoolDictionary.
Variable final : RelayerModel.

Definition accepted (c : list Address * list string) : Prop :=
  ∀ deltas, plain deltas →
    ∃ deltas', updated BigNumber_from deltas c.1 c.2 = Returned deltas' ∧ plain deltas'.

Definition writes_of (call : Requests) : list Ref :=
  written (replay (contribution executor call pools) final).1.

Definition replayable (call : Requests) : Prop :=
  ∃ acc c,
    replay (contribution executor call pools) final = (acc, Returned c) ∧
    (∀ ref value, Writes ref value ∈ acc → final !! ref = Some value) ∧
    accepted c.
End Replayed.

(** ** Notions for the further properties

    [net] is the sum of the entries of a delta map and [amounts_total] the
    sum of the amounts that go with a sequence of assets.  An asset with
    its amount is [mergeable] into a delta map when the callback of
    [updateDeltas] completes on it.  [replayed] is the contribution of a
    request whose reads are answered from [final]. *)
Definition net (deltas : gmap string Z) : Z :=
  map_fold (fun _ value total => value + total) 0 deltas.

Section Merging.
Variable BigNumber_from : string → option Z.

Definition amounts_total (assets : list Address) (amounts : list string) : Z :=
  foldr (fun '(_, a) total => default 0 (BigNumber_from a) + total) 0
        (zip assets amounts).

Definition mergeable (deltas : gmap string Z) (t : Address) (amount : option string)
  : Prop :=
  (is_Some (deltas !! t) ∨ inherited t = false) ∧ is_Some (amount ≫= BigNumber_from).
End Merging.

Definition replayed (executor : Executor) (pools : PoolDictionary)
    (final : RelayerModel) (call : Requests) : list Address * list string :=
  match (replay (contribution executor call pools) final).2 with
  | Returned c => c
  | Thrown _ => ([], [])
  end.

(** ** A worked configuration

    Two weighted pools over the tokens A, B and C, a math provider that
    trades one for one, and decimal strings for amounts.  The examples
    below are evaluated on it. *)
Module Example.
Definition decimal (z : Z) : string :=
  DecimalString.NilZero.string_of_int (Z.to_int z).

Definition fromDecimal (s : string) : option Z :=
  Z.of_int <$> DecimalString.NilZero.int_of_string s.

Definition P1 : Pool :=
  {| id := "P1"; address := "BPT1"; tokens := ["A"; "B"];
     poolType := "Weighted"; parameters := [50; 50] |}.

Definition P2 : Pool :=
  {| id := "P2"; address := "BPT2"; tokens := ["B"; "C"];
     poolType := "Weighted"; parameters := [50; 50] |}.

(** A data service that always answers, and one that never does. *)
Definition online (_ : nat) : option (list Pool) := Some [P1; P2].
Definition offline (_ : nat) : option (list Pool) := None.

(** User data is a decimal amount or, failing that, the name of an
    output reference. *)
Definition decode (data : string) : Amount :=
  match fromDecimal data with
  | Some value => Known value
  | None => Chained data
  end.

Definition trades (pool : Pool) (tokenIn tokenOut : Address) : bool :=
  bool_decide (tokenIn ∈ tokens pool) && bool_decide (tokenOut ∈ tokens pool).

Definition oneForOne : PoolMath :=
  {| decodeJoin := fun pool data => Returned (replicate (length (tokens pool)) (decode data));
     decodeExit := fun pool data => Returned (decode data);
     onJoin := fun pool amountsIn => Returned (foldr Z.add 0 amountsIn);
     onExit := fun pool bptIn =>
       Returned (replicate (length (tokens pool)) (bptIn / Z.of_nat (length (tokens pool))));
     onSwapExactIn := fun pool tokenIn tokenOut value =>
       if trades pool tokenIn tokenOut then Returned value
       else Thrown (MathError (id pool));
     onSwapExactOut := fun pool tokenIn tokenOut value =>
       if trades pool tokenIn tokenOut then Returned value
       else Thrown (MathError (id pool)) |}.

Definition poolModel : Executor := PoolModel_methods oneForOne decimal.

Definition funds : FundManagement := {| sender := "user"; recipient := "user" |}.

Definition swap (tag : Z) (pool : string) (tokenIn tokenOut : Address)
    (given : Amount) (ref : Ref) : Requests :=
  OfSwap {| swap_actionType := tag;
            swap_request := {| poolId := pool; assetIn := tokenIn;
                               assetOut := tokenOut; amount := given |};
            swap_funds := funds;
            swap_outputReference := ref |}.

Definition join (pool : string) (data : string) (ref : Ref) : Requests :=
  OfJoin {| join_actionType := ActionType.Join; join_poolId := pool;
            join_encodedUserData := data; join_outputReference := ref |}.

Definition exit (pool : string) (data : string) (refs : list Ref) : Requests :=
  OfExit {| exit_actionType := ActionType.Exit; exit_poolId := pool;
            exit_encodedUserData := data; exit_outputReferences := refs |}.

Definition run_multicall (provider : nat → option (list Pool))
    (rawCalls : list Requests) (refresh : option bool) : Action (gmap string Z) :=
  multicall fromDecimal provider poolModel rawCalls refresh.
End Example.

(** * Properties *)

(** ** Running programs over the ledger *)

Section Facts.
Context {A B : Type}.

Lemma run_bind (p : Prog A) (f : A → Prog B) ledger :
  run (p ≫= f) ledger =
  match run p ledger with
  | (ledger', Returned a) => run (f a) ledger'
  | (ledger', Thrown e) => (ledger', Thrown e)
  end.
Proof.
  revert ledger. induction p as [a|e|ref k IH|ref value k IH]; intros ledger; simpl.
  - done.
  - done.
  - destruct (read ref ledger); [apply IH | done].
  - destruct (write ref value ledger) as [ledger' [[]|e]]; [apply IH | done].
Qed.
End Facts.

(** ** The loop of [multicall] *)

Section Loop.
Variable BigNumber_from : string → option Z.
Variable getPools : nat → option (list Pool).
Variable executor : Executor.

Lemma invoke_run {T} poolModel (p : Prog T) w ledger :
  relayers w !! relayerModel poolModel = Some ledger →
  invoke poolModel p w =
    (set_relayers (<[relayerModel poolModel := (run p ledger).1]> (relayers w)) w,
     (run p ledger).2).
Proof. intros H. unfold invoke. rewrite H. by destruct (run p ledger). Qed.

Lemma multicall_body_step poolModel pools deltas call w ledger :
  relayers w !! relayerModel poolModel = Some ledger →
  multicall_body BigNumber_from executor poolModel pools deltas call w =
    (set_relayers (<[relayerModel poolModel :=
                      (step BigNumber_from executor pools ledger deltas call).1]>
                     (relayers w)) w,
     (step BigNumber_from executor pools ledger deltas call).2).
Proof.
  intros H. unfold multicall_body, step, contribution.
  destruct (actionType call =? ActionType.Join);
    [|destruct (actionType call =? ActionType.Exit);
      [|destruct (actionType call =? ActionType.BatchSwap)]];
    unfold mbind at 1, Action_bind; rewrite (invoke_run _ _ _ _ H);
    rewrite ?run_bind.
  - destruct (run _ ledger) as [ledger' [[tokens amounts]|e]]; done.
  - destruct (run _ ledger) as [ledger' [[tokens amounts]|e]]; done.
  - destruct (run _ ledger) as [ledger' [swapDeltas|e]]; [|done]. simpl.
    destruct (assets call); done.
  - destruct (run _ ledger) as [ledger' [swapDeltas|e]]; [|done]. simpl.
    destruct (request call); done.
Qed.

Lemma multicall_loop_steps poolModel pools rawCalls : ∀ deltas w ledger,
  relayers w !! relayerModel poolModel = Some ledger →
  multicall_loop BigNumber_from executor poolModel pools deltas rawCalls w =
    (set_relayers (<[relayerModel poolModel :=
                      (steps BigNumber_from executor pools ledger deltas rawCalls).1]>
                     (relayers w)) w,
     (steps BigNumber_from executor pools ledger deltas rawCalls).2).
Proof.
  induction rawCalls as [|call rest IH]; intros deltas w ledger H; simpl.
  - unfold mret, Action_ret. f_equal. destruct w as [t r f d]; unfold set_relayers; simpl in *.
    f_equal. symmetry. by apply list_insert_id.
  - unfold mbind at 1, Action_bind. rewrite (multicall_body_step _ _ _ _ _ _ H).
    destruct (step _ _ _ _ _ call) as [ledger' [deltas'|e]]; simpl; [|done].
    rewrite (IH deltas' _ ledger').
    + simpl. by rewrite list_insert_insert_eq.
    + simpl. apply list_lookup_insert_eq. by eapply lookup_lt_Some.
Qed.

Lemma poolsDictionary_relayers refresh w :
  relayers (poolsDictionary getPools refresh w).1 = relayers w.
Proof.
  unfold poolsDictionary. repeat case_match; done.
Qed.

Lemma multicall_steps rawCalls refresh w :
  multicall BigNumber_from getPools executor rawCalls refresh w =
    match poolsDictionary getPools (default false refresh)
            (set_relayers (relayers w ++ [RelayerModel_new]) w) with
    | (w', Returned pools) =>
        (set_relayers
           (relayers w ++
              [(steps BigNumber_from executor pools RelayerModel_new ∅ rawCalls).1]) w',
         (steps BigNumber_from executor pools RelayerModel_new ∅ rawCalls).2)
    | (w', Thrown e) => (w', Thrown e)
    end.
Proof.
  unfold multicall. unfold mbind at 1, Action_bind. unfold new_RelayerModel.
  unfold mbind at 1, Action_bind.
  pose proof (poolsDictionary_relayers (default false refresh)
                (set_relayers (relayers w ++ [RelayerModel_new]) w)) as Hrel.
  destruct (poolsDictionary _ _ _) as [w' [pools|e]]; [|done]. simpl in Hrel.
  rewrite (multicall_loop_steps _ _ _ _ _ RelayerModel_new).
  - simpl. rewrite Hrel. f_equal. f_equal.
    rewrite insert_app_r_alt by lia. by rewrite Nat.sub_diag.
  - simpl. rewrite Hrel. by rewrite lookup_app_r, Nat.sub_diag by lia.
Qed.

(** *** [updateDeltas] adds, entry by entry *)

Lemma updateDelta_Returned deltas t amount deltas' :
  updateDelta BigNumber_from deltas t amount = (deltas', Returned tt) →
  ∃ a value, amount = Some a ∧ BigNumber_from a = Some value ∧
             deltas' = <[t := default 0 (deltas !! t) + value]> deltas.
Proof.
  unfold updateDelta. intros H.
  destruct (deltas !! t) as [current|] eqn:Ht; [|destruct (inherited t); [done|]];
    destruct amount as [a|]; simpl in H; try done;
    destruct (BigNumber_from a) as [value|] eqn:Ha; try done;
    injection H as <-; by exists a, value.
Qed.

Lemma amount_for_cons t t' a tokens amounts :
  amount_for BigNumber_from t (t' :: tokens, a :: amounts) =
    if decide (t' = t)
    then default 0 (BigNumber_from a) + amount_for BigNumber_from t (tokens, amounts)
    else amount_for BigNumber_from t (tokens, amounts).
Proof. done. Qed.

Lemma amount_for_untouched t tokens : ∀ amounts,
  t ∉ tokens → amount_for BigNumber_from t (tokens, amounts) = 0.
Proof.
  induction tokens as [|t' tokens IH]; intros [|a amounts] Hin; try done.
  rewrite amount_for_cons. apply not_elem_of_cons in Hin as [Hne Hin].
  rewrite decide_False by done. by apply IH.
Qed.

Lemma updateDeltas_from_Returned assets : ∀ i deltas amounts deltas',
  updateDeltas_from BigNumber_from i deltas assets amounts = (deltas', Returned tt) →
  ∀ t, deltas' !! t =
       if decide (t ∈ assets)
       then Some (default 0 (deltas !! t)
                  + amount_for BigNumber_from t (assets, drop i amounts))
       else deltas !! t.
Proof.
  induction assets as [|t0 assets IH]; intros i deltas amounts deltas' H t; simpl in H.
  - injection H as <-. rewrite decide_False; [done|]. apply not_elem_of_nil.
  - destruct (updateDelta _ deltas t0 (amounts !! i)) as [deltas1 [[]|e]] eqn:H0; [|done].
    apply updateDelta_Returned in H0 as (a & value & Hi & Ha & ->).
    rewrite (drop_S _ _ _ Hi), amount_for_cons, Ha. simpl.
    rewrite (IH _ _ _ _ H t).
    destruct (decide (t0 = t)) as [->|Hne].
    + rewrite lookup_insert_eq. simpl.
      rewrite (decide_True (P := t ∈ t :: assets)) by (apply elem_of_cons; by left).
      destruct (decide (t ∈ assets)) as [Hin|Hin]; f_equal; [lia|].
      rewrite amount_for_untouched by done. lia.
    + rewrite lookup_insert_ne by done.
      destruct (decide (t ∈ assets)) as [Hin|Hin].
      * by rewrite decide_True by (apply elem_of_cons; by right).
      * rewrite decide_False; [done|]. rewrite elem_of_cons. intros [?|?]; congruence.
Qed.

Lemma updated_Returned deltas tokens amounts deltas' :
  updated BigNumber_from deltas tokens amounts = Returned deltas' →
  ∀ t, deltas' !! t =
       if touches t (tokens, amounts)
       then Some (default 0 (deltas !! t) + amount_for BigNumber_from t (tokens, amounts))
       else deltas !! t.
Proof.
  unfold updated, updateDeltas. intros H t.
  destruct (updateDeltas_from _ _ _ _ _) as [d [[]|e]] eqn:Hd; [|done].
  injection H as ->. rewrite (updateDeltas_from_Returned _ _ _ _ _ Hd t).
  unfold touches. simpl. by destruct (decide (t ∈ tokens)); [rewrite bool_decide_true|rewrite bool_decide_false].
Qed.

Lemma amount_for_not_touches t c :
  touches t c = false → amount_for BigNumber_from t c = 0.
Proof.
  destruct c as [tokens amounts]. unfold touches. simpl. intros H.
  apply amount_for_untouched. by apply bool_decide_eq_false in H.
Qed.

Lemma total_for_untouched t cs :
  existsb (touches t) cs = false → total_for BigNumber_from t cs = 0.
Proof.
  induction cs as [|c cs IH]; simpl; [done|]. intros H.
  apply orb_false_elim in H as [Hc Hcs].
  rewrite (amount_for_not_touches _ _ Hc), IH; done.
Qed.

Lemma steps_accumulate pools rawCalls : ∀ ledger deltas ledger' deltas',
  steps BigNumber_from executor pools ledger deltas rawCalls = (ledger', Returned deltas') →
  let cs := contributions executor pools ledger rawCalls in
  length cs = length rawCalls ∧
  ∀ t, deltas' !! t =
       if existsb (touches t) cs
       then Some (default 0 (deltas !! t) + total_for BigNumber_from t cs)
       else deltas !! t.
Proof.
  induction rawCalls as [|call rest IH]; intros ledger deltas ledger' deltas' H; simpl in *.
  - injection H as <- <-. split; [done|]. intros t. done.
  - unfold step in H.
    destruct (run _ ledger) as [ledger1 [[tokens amounts]|e]]; [|done].
    destruct (updated _ deltas tokens amounts) as [deltas1|e] eqn:H1; [|done].
    apply IH in H as [Hlen H]. split; [simpl; by rewrite Hlen|].
    intros t. rewrite (H t). simpl.
    rewrite (updated_Returned _ _ _ _ H1 t).
    destruct (touches t (tokens, amounts)) eqn:Hc; simpl;
      destruct (existsb _ _) eqn:Hcs; simpl; f_equal; try lia.
    + rewrite (total_for_untouched _ _ Hcs). lia.
    + rewrite (amount_for_not_touches _ _ Hc). lia.
Qed.
End Loop.



(** ** Statements about [multicall] *)

Section Multicall.
Variable BigNumber_from : string → option Z.
Variable getPools : nat → option (list Pool).
Variable executor : Executor.

Lemma steps_app pools pre : ∀ post ledger deltas,
  steps BigNumber_from executor pools ledger deltas (pre ++ post) =
    match steps BigNumber_from executor pools ledger deltas pre with
    | (ledger', Returned deltas') =>
        steps BigNumber_from executor pools ledger' deltas' post
    | (ledger', Thrown e) => (ledger', Thrown e)
    end.
Proof.
  induction pre as [|call pre IH]; intros post ledger deltas; simpl; [done|].
  destruct (step _ _ _ _ _ call) as [ledger' [deltas'|e]]; [apply IH | done].
Qed.

Lemma multicall_Returned rawCalls refresh w w' deltas :
  multicall BigNumber_from getPools executor rawCalls refresh w = (w', Returned deltas) →
  ∃ pools ledger,
    dictionary_obtained getPools refresh w = Returned pools ∧
    steps BigNumber_from executor pools RelayerModel_new ∅ rawCalls
      = (ledger, Returned deltas) ∧
    relayers w' = (relayers w ++ [ledger])%list.
Proof.
  rewrite multicall_steps. unfold dictionary_obtained, new_RelayerModel. simpl.
  destruct (poolsDictionary _ _ _) as [w1 [pools|e]]; [|done].
  destruct (steps _ _ pools _ _ _) as [ledger o] eqn:Hsteps. simpl.
  intros [= <- ->]. by exists pools, ledger.
Qed.

(** C1.  The delta map [multicall] returns maps every token that occurs in
    the contribution of some request to the exact sum of the amounts all
    the requests of the batch contribute for it (so a token two or more
    requests touch accumulates and is never overwritten, the first addition
    starting from zero), and has no entry for any other token. *)
Theorem multicall_deltas_accumulate rawCalls refresh w w' deltas :
  multicall BigNumber_from getPools executor rawCalls refresh w = (w', Returned deltas) →
  ∃ pools,
    dictionary_obtained getPools refresh w = Returned pools ∧
    let cs := contributions executor pools RelayerModel_new rawCalls in
    length cs = length rawCalls ∧
    ∀ t, deltas !! t =
         if existsb (touches t) cs
         then Some (total_for BigNumber_from t cs)
         else None.
Proof.
  intros H. apply multicall_Returned in H as (pools & ledger & Hpools & Hsteps & _).
  exists pools. split; [done|].
  apply steps_accumulate in Hsteps as [Hlen Hsteps]. split; [done|].
  intros t. rewrite (Hsteps t), lookup_empty. simpl.
  destruct (existsb _ _); [f_equal; lia | done].
Qed.

(** C3.  When the requests before some request of the batch execute and
    the execution of that request fails with [e], in the operation of the
    executor or in the merge of what it returns, [multicall] as a whole
    throws [e]: it returns no delta map, partial or other, and the
    exception is not swallowed. *)
Theorem multicall_throws_what_a_request_throws
    pre call post refresh w w1 deltas pools e :
  dictionary_obtained getPools refresh w = Returned pools →
  multicall BigNumber_from getPools executor pre refresh w = (w1, Returned deltas) →
  fails BigNumber_from executor pools
    (ledger_after BigNumber_from executor pools pre) deltas call e →
  (multicall BigNumber_from getPools executor (pre ++ call :: post) refresh w).2
    = Thrown e.
Proof.
  intros Hpools Hpre Hcall.
  apply multicall_Returned in Hpre as (pools' & ledger & Hpools' & Hsteps & _).
  rewrite Hpools in Hpools'. injection Hpools' as <-.
  unfold ledger_after in Hcall. rewrite Hsteps in Hcall. simpl in Hcall.
  rewrite multicall_steps. unfold dictionary_obtained, new_RelayerModel in Hpools.
  simpl in Hpools. destruct (poolsDictionary _ _ _) as [w2 [pools2|e2]]; [|done].
  simpl in Hpools. injection Hpools as ->. simpl.
  rewrite steps_app, Hsteps. simpl. unfold step.
  destruct Hcall as [Hop|tokens amounts Hop Hmerge];
    destruct (run _ ledger) as [ledger' [[tokens' amounts']|e']]; simpl in Hop;
    try done.
  - by injection Hop as ->.
  - injection Hop as -> ->. unfold updated.
    destruct (updateDeltas _ deltas tokens amounts) as [deltas' [[]|e']];
      simpl in Hmerge; [done|]. by injection Hmerge as ->.
Qed.

(** A failing fetch of the pools leaves [multicall] the same way. *)
Lemma multicall_throws_what_poolsDictionary_throws rawCalls refresh w e :
  dictionary_obtained getPools refresh w = Thrown e →
  (multicall BigNumber_from getPools executor rawCalls refresh w).2 = Thrown e.
Proof.
  rewrite multicall_steps. unfold dictionary_obtained, new_RelayerModel. simpl.
  by destruct (poolsDictionary _ _ _) as [w1 [pools|e1]]; [|intros [= ->]].
Qed.

(** C10.  On the empty batch [multicall] asks the pool state source for
    the dictionary exactly once and, the dictionary obtained, returns the
    empty delta map. *)
Theorem multicall_empty_batch refresh w pools :
  dictionary_obtained getPools refresh w = Returned pools →
  (multicall BigNumber_from getPools executor [] refresh w).2 = Returned ∅ ∧
  dictionaryRequests (multicall BigNumber_from getPools executor [] refresh w).1
    = S (dictionaryRequests w).
Proof.
  unfold dictionary_obtained, new_RelayerModel. simpl. intros Hpools.
  rewrite multicall_steps.
  assert (dictionaryRequests
            (poolsDictionary getPools (default false refresh)
               (set_relayers (relayers w ++ [RelayerModel_new]) w)).1
          = S (dictionaryRequests w)) as Hcount.
  { unfold poolsDictionary. repeat case_match; done. }
  destruct (poolsDictionary _ _ _) as [w1 [pools1|e]]; [|done]. done.
Qed.
End Multicall.

(** Two joins into the same pool: each token of the pool is touched twice
    and carries the sum of both contributions. *)
Lemma multicall_deltas_accumulate_witness :
  ∃ pools,
    dictionary_obtained Example.online None World_new = Returned pools ∧
    let cs := contributions Example.poolModel pools RelayerModel_new
                [Example.join "P1" "10" "r1"; Example.join "P1" "5" "r2"] in
    length cs = 2%nat ∧
    ∀ t, (list_to_map [("A", -15); ("B", -15); ("BPT1", 30)] : gmap string Z) !! t =
         if existsb (touches t) cs
         then Some (total_for Example.fromDecimal t cs)
         else None.
Proof.
  eapply (multicall_deltas_accumulate Example.fromDecimal Example.online
            Example.poolModel
            [Example.join "P1" "10" "r1"; Example.join "P1" "5" "r2"]
            None World_new).
  vm_compute. reflexivity.
Defined.

(** A swap, then a join into a pool the dictionary does not know, then
    another swap: the join fails in the executor and the batch throws what
    the join throws. *)
Lemma multicall_throws_what_a_request_throws_witness :
  (Example.run_multicall Example.online
     ([Example.swap ActionType.Swap "P1" "A" "B" (Known 7) "r1"]
        ++ Example.join "P9" "10" "r2"
        :: [Example.swap ActionType.Swap "P2" "B" "C" (Chained "r1") "r3"])
     None World_new).2
  = Thrown (PoolNotFoundError "P9").
Proof.
  eapply (multicall_throws_what_a_request_throws Example.fromDecimal Example.online
            Example.poolModel
            [Example.swap ActionType.Swap "P1" "A" "B" (Known 7) "r1"]
            (Example.join "P9" "10" "r2")
            [Example.swap ActionType.Swap "P2" "B" "C" (Chained "r1") "r3"]
            None World_new).
  - vm_compute. reflexivity.
  - vm_compute. reflexivity.
  - apply fails_in_the_operation. vm_compute. reflexivity.
Defined.

Lemma multicall_empty_batch_witness :
  (Example.run_multicall Example.online [] None World_new).2 = Returned ∅ ∧
  dictionaryRequests (Example.run_multicall Example.online [] None World_new).1 = 1%nat.
Proof.
  eapply (multicall_empty_batch Example.fromDecimal Example.online Example.poolModel
            None World_new).
  vm_compute. reflexivity.
Defined.

(** ** Small runs *)

(** A token named twice accumulates; a missing amount throws after the
    entry has been set to zero; a name inherited from [Object.prototype]
    throws before anything is stored. *)
Example updateDeltas_accumulates :
  updateDeltas Example.fromDecimal ∅ ["A"; "B"; "A"] ["1"; "-4"; "2"]
  = (list_to_map [("A", 3); ("B", -4)], Returned tt).
Proof. vm_compute. reflexivity. Qed.

Example updateDeltas_missing_amount :
  updateDeltas Example.fromDecimal ∅ ["A"; "B"] ["1"]
  = (list_to_map [("A", 1); ("B", 0)], Thrown InvalidBigNumber).
Proof. vm_compute. reflexivity. Qed.

Example updateDeltas_inherited_name :
  updateDeltas Example.fromDecimal ∅ ["constructor"] ["1"] = (∅, Thrown TypeError).
Proof. vm_compute. reflexivity. Qed.

(** Two swaps chained through an output reference: A is paid, C is
    received and B cancels out. *)
Example chained_swaps :
  (Example.run_multicall Example.online
     [Example.swap ActionType.Swap "P1" "A" "B" (Known 7) "r1";
      Example.swap ActionType.Swap "P2" "B" "C" (Chained "r1") "r2"]
     None World_new).2
  = Returned (list_to_map [("A", -7); ("B", 0); ("C", 7)]).
Proof. vm_compute. reflexivity. Qed.

(** A join followed by the exit that hands back the shares the join
    produced. *)
Example join_then_exit :
  (Example.run_multicall Example.online
     [Example.join "P1" "10" "r1"; Example.exit "P1" "r1" ["x"; "y"]]
     None World_new).2
  = Returned (list_to_map [("A", 0); ("B", 0); ("BPT1", 0)]).
Proof. vm_compute. reflexivity. Qed.

(** With the data service unreachable nothing is returned, not even for
    the empty batch. *)
Example offline_service :
  (Example.run_multicall Example.offline [] None World_new).2 = Thrown DataSourceError.
Proof. vm_compute. reflexivity. Qed.

(** ** The mapping helpers and the exit concern *)

(** C7.  Each mapping helper is a function of its argument alone; the
    request it returns carries the tag of its variant and, field for field,
    the values of the descriptor. *)
Theorem mapping_helpers_translate_field_for_field :
  (∀ call : Swap,
     swap_actionType (mapSwapRequest call) = ActionType.Swap ∧
     swap_request (mapSwapRequest call) = Swap_request call ∧
     swap_funds (mapSwapRequest call) = Swap_funds call ∧
     swap_outputReference (mapSwapRequest call) = Swap_outputReference call) ∧
  (∀ call : EncodeBatchSwapInput,
     batch_actionType (mapBatchSwapRequest call) = ActionType.BatchSwap ∧
     batch_swaps (mapBatchSwapRequest call) = ebs_swaps call ∧
     batch_assets (mapBatchSwapRequest call) = ebs_assets call ∧
     batch_funds (mapBatchSwapRequest call) = ebs_funds call ∧
     batch_swapType (mapBatchSwapRequest call) = ebs_swapType call ∧
     batch_outputReferences (mapBatchSwapRequest call) = ebs_outputReferences call) ∧
  (∀ call : EncodeJoinPoolInput,
     join_actionType (mapJoinPoolRequest call) = ActionType.Join ∧
     join_poolId (mapJoinPoolRequest call) = ejp_poolId call ∧
     join_encodedUserData (mapJoinPoolRequest call)
       = join_userData (ejp_joinPoolRequest call) ∧
     join_outputReference (mapJoinPoolRequest call) = ejp_outputReference call) ∧
  (∀ call : EncodeExitPoolInput,
     exit_actionType (mapExitPoolRequest call) = ActionType.Exit ∧
     exit_poolId (mapExitPoolRequest call) = eep_poolId call ∧
     exit_encodedUserData (mapExitPoolRequest call)
       = exit_userData (eep_exitPoolRequest call) ∧
     exit_outputReferences (mapExitPoolRequest call) = eep_outputReferences call).
Proof. repeat split. Qed.

(** C9.  Every build method of [StablePhantomPoolExit] throws
    [Error('Exit type not supported')] on every input, so none returns the
    attributes of an exit transaction. *)
Theorem StablePhantomPoolExit_never_builds
    (Pool ExitExactBPTInAttributes ExitExactTokensOutAttributes : Type) :
  (∀ parameters,
     StablePhantomPoolExit.buildExitExactBPTIn Pool ExitExactBPTInAttributes parameters
       = Thrown (Error "Exit type not supported")) ∧
  (∀ parameters,
     StablePhantomPoolExit.buildExitExactTokensOut Pool ExitExactTokensOutAttributes
       parameters = Thrown (Error "Exit type not supported")) ∧
  (∀ parameters,
     StablePhantomPoolExit.buildRecoveryExit Pool ExitExactBPTInAttributes parameters
       = Thrown (Error "Exit type not supported")) ∧
  (∀ parameters,
     returns (StablePhantomPoolExit.buildExitExactBPTIn Pool ExitExactBPTInAttributes
                parameters) = false) ∧
  (∀ parameters,
     returns (StablePhantomPoolExit.buildExitExactTokensOut Pool
                ExitExactTokensOutAttributes parameters) = false) ∧
  (∀ parameters,
     returns (StablePhantomPoolExit.buildRecoveryExit Pool ExitExactBPTInAttributes
                parameters) = false).
Proof. repeat split. Qed.

(** ** The pool cache and the ledger of a call *)

Section Cache.
Variable BigNumber_from : string → option Z.
Variable getPools : nat → option (list Pool).
Variable executor : Executor.

Lemma multicall_world rawCalls refresh w :
  let entered := set_relayers (relayers w ++ [RelayerModel_new]) w in
  let answered := (poolsDictionary getPools (default false refresh) entered).1 in
  this (multicall BigNumber_from getPools executor rawCalls refresh w).1 = this answered ∧
  fetches (multicall BigNumber_from getPools executor rawCalls refresh w).1
    = fetches answered ∧
  dictionaryRequests (multicall BigNumber_from getPools executor rawCalls refresh w).1
    = dictionaryRequests answered.
Proof.
  rewrite multicall_steps. simpl.
  destruct (poolsDictionary _ _ _) as [w1 [pools|e]]; done.
Qed.




Lemma poolsDictionary_set_relayers refresh objects w :
  poolsDictionary getPools refresh (set_relayers objects w) =
    (set_relayers objects (poolsDictionary getPools refresh w).1,
     (poolsDictionary getPools refresh w).2).
Proof.
  unfold poolsDictionary. simpl.
  destruct refresh, (poolsDict (poolsSource (this w))); simpl;
    try destruct (getPools _); done.
Qed.


(** C5.  Every call of [multicall] constructs a ledger of its own: the
    second of two successive calls has the outcome it has when the ledger
    of the first was never constructed, the ledger it uses is a new object
    that starts empty, and the ledger of the first call is left as it
    was. *)
Theorem multicall_constructs_a_fresh_ledger calls1 refresh1 calls2 refresh2 w :
  let first := multicall BigNumber_from getPools executor calls1 refresh1 w in
  let second := multicall BigNumber_from getPools executor calls2 refresh2 first.1 in
  let alone := multicall BigNumber_from getPools executor calls2 refresh2
                 (set_relayers (relayers w) first.1) in
  second.2 = alone.2 ∧
  ∃ ledger1 ledger2,
    relayers first.1 = (relayers w ++ [ledger1])%list ∧
    relayers second.1 = (relayers w ++ [ledger1; ledger2])%list ∧
    relayers alone.1 = (relayers w ++ [ledger2])%list ∧
    ledger2 = match dictionary_obtained getPools refresh2 first.1 with
              | Returned pools =>
                  (steps BigNumber_from executor pools RelayerModel_new ∅ calls2).1
              | Thrown _ => RelayerModel_new
              end.
Proof.
  intros first second alone. subst second alone.
  rewrite !(multicall_steps _ _ _ calls2). simpl.
  rewrite !poolsDictionary_set_relayers.
  assert (∃ ledger1, relayers first.1 = (relayers w ++ [ledger1])%list) as [ledger1 H1].
  { subst first. rewrite multicall_steps. rewrite poolsDictionary_set_relayers.
    destruct (poolsDictionary _ _ w) as [w1 [pools|e]]; simpl; eauto. }
  unfold dictionary_obtained, new_RelayerModel. simpl.
  rewrite !poolsDictionary_set_relayers.
  destruct (poolsDictionary _ _ first.1) as [w2 [pools|e]]; simpl.
  - split; [done|]. eexists ledger1, _. rewrite H1. simpl.
    split; [done|]. rewrite <- app_assoc. done.
  - split; [done|]. exists ledger1, RelayerModel_new. rewrite H1.
    split; [done|]. rewrite <- app_assoc. done.
Qed.
End Cache.


(** A reference written by one call is unset in the next. *)
Example reference_of_an_earlier_call_is_unset :
  let first := Example.run_multicall Example.online
                 [Example.swap ActionType.Swap "P1" "A" "B" (Known 7) "r1"]
                 None World_new in
  first.2 = Returned (list_to_map [("B", 7); ("A", -7)]) ∧
  (Example.run_multicall Example.online
     [Example.swap ActionType.Swap "P2" "B" "C" (Chained "r1") "r2"]
     None first.1).2
  = Thrown (UnresolvedReferenceError "r1").
Proof. split; vm_compute; reflexivity. Qed.

(** ** The dispatch on [actionType] *)

Section Dispatch.
Variable BigNumber_from : string → option Z.
Variable executor : Executor.

Lemma unrecognized_tag tag :
  ActionType.recognized tag = false →
  (tag =? ActionType.Join) = false ∧ (tag =? ActionType.Exit) = false ∧
  (tag =? ActionType.BatchSwap) = false ∧ (tag =? ActionType.Swap) = false.
Proof.
  unfold ActionType.recognized. intros H. apply bool_decide_eq_false in H.
  repeat split; apply Z.eqb_neq; intros ->; apply H; auto.
Qed.

Lemma updateDeltas_from_Thrown assets : ∀ i deltas amounts deltas' e,
  updateDeltas_from BigNumber_from i deltas assets amounts = (deltas', Thrown e) →
  e = TypeError ∨ e = InvalidBigNumber.
Proof.
  induction assets as [|t assets IH]; intros i deltas amounts deltas' e; simpl; [done|].
  destruct (updateDelta _ deltas t (amounts !! i)) as [deltas1 [[]|e1]] eqn:H1.
  - apply IH.
  - intros [= <- <-]. unfold updateDelta in H1.
    repeat case_match; simplify_eq; auto.
Qed.

Lemma updated_Thrown deltas tokens amounts e :
  updated BigNumber_from deltas tokens amounts = Thrown e →
  e = TypeError ∨ e = InvalidBigNumber.
Proof.
  unfold updated, updateDeltas.
  destruct (updateDeltas_from _ _ _ _ _) as [deltas' [[]|e']] eqn:H; [done|].
  intros [= <-]. by eapply updateDeltas_from_Thrown.
Qed.

(** The dispatch of [multicall] has no branch that rejects: a request
    whose tag is none of the four recognized ones falls to the last
    branch, where [doSingleSwap] is called on it. *)
Lemma unrecognized_tag_reaches_doSingleSwap poolModel pools deltas call :
  ActionType.recognized (actionType call) = false →
  multicall_body BigNumber_from executor poolModel pools deltas call =
    (swapDeltas ← invoke poolModel (doSingleSwap executor call pools);
     match request call with
     | Some request =>
         lift (updated BigNumber_from deltas
                 [assetOut request; assetIn request] swapDeltas)
     | None => throw TypeError
     end).
Proof.
  intros H. apply unrecognized_tag in H as (HJ & HE & HB & _).
  unfold multicall_body. by rewrite HJ, HE, HB.
Qed.

Lemma unrecognized_contribution pools call :
  ActionType.recognized (actionType call) = false →
  contribution executor call pools =
    (swapDeltas ← doSingleSwap executor call pools;
     match request call with
     | Some request => Finish ([assetOut request; assetIn request], swapDeltas)
     | None => Abort TypeError
     end).
Proof.
  intros H. apply unrecognized_tag in H as (HJ & HE & HB & _).
  unfold contribution. by rewrite HJ, HE, HB.
Qed.
End Dispatch.

Section Rejection.
Variable BigNumber_from : string → option Z.
Variable getPools : nat → option (list Pool).
Variable math : PoolMath.
Variable BigNumber_toString : Z → string.

Local Abbreviation methods_ := (PoolModel_methods math BigNumber_toString).

(** [doSingleSwap] on a request that is not tagged [Swap] throws at once
    and leaves the ledger as it found it. *)
Lemma doSingleSwap_rejects call pools ledger :
  (actionType call =? ActionType.Swap) = false →
  run (PoolModel_doSingleSwap math BigNumber_toString call pools) ledger
    = (ledger, Thrown UnsupportedActionError).
Proof.
  intros H. destruct call as [b|j|x|s]; simpl in *; [done..|]. by rewrite H.
Qed.

Lemma unrecognized_step pools ledger deltas call :
  ActionType.recognized (actionType call) = false →
  step BigNumber_from methods_ pools ledger deltas call
    = (ledger, Thrown UnsupportedActionError).
Proof.
  intros H. unfold step. rewrite (unrecognized_contribution _ _ _ H), run_bind.
  apply unrecognized_tag in H as (_ & _ & _ & HS).
  change (doSingleSwap methods_) with (PoolModel_doSingleSwap math BigNumber_toString).
  by rewrite (doSingleSwap_rejects _ _ _ HS).
Qed.

(** C2.  A batch that holds a request whose tag is none of the four
    recognized ones never yields a delta map, and when the requests before
    that request execute, [multicall] throws [UnsupportedActionError] at
    it: the request is not processed, the ledger and the instance are as
    the requests before it leave them. *)
Theorem unrecognized_actionType_is_rejected pre call post refresh w :
  ActionType.recognized (actionType call) = false →
  returns (multicall BigNumber_from getPools methods_ (pre ++ call :: post) refresh w).2
    = false ∧
  ∀ w1 deltas,
    multicall BigNumber_from getPools methods_ pre refresh w = (w1, Returned deltas) →
    multicall BigNumber_from getPools methods_ (pre ++ call :: post) refresh w
      = (w1, Thrown UnsupportedActionError).
Proof.
  intros H. rewrite !multicall_steps.
  destruct (poolsDictionary _ _ _) as [w2 [pools|e]]; [|done].
  rewrite steps_app.
  destruct (steps _ _ pools _ _ pre) as [ledger [deltas0|e]]; [|done].
  simpl. rewrite (unrecognized_step _ _ _ _ H). simpl. split; [done|].
  by intros w1 deltas [= <- _].
Qed.
End Rejection.

(** A swap, then a request of the shape of a swap tagged 7, then a join:
    the batch stops at the second request, whose output reference stays
    unset. *)
Lemma unrecognized_actionType_is_rejected_witness :
  let batch := [Example.swap ActionType.Swap "P1" "A" "B" (Known 7) "r1"]
                 ++ Example.swap 7 "P2" "B" "C" (Chained "r1") "r2"
                 :: [Example.join "P1" "10" "r3"] in
  returns (Example.run_multicall Example.online batch None World_new).2 = false ∧
  Example.run_multicall Example.online batch None World_new
    = ((Example.run_multicall Example.online
          [Example.swap ActionType.Swap "P1" "A" "B" (Known 7) "r1"]
          None World_new).1,
       Thrown UnsupportedActionError).
Proof.
  pose proof (unrecognized_actionType_is_rejected Example.fromDecimal Example.online
                Example.oneForOne Example.decimal
                [Example.swap ActionType.Swap "P1" "A" "B" (Known 7) "r1"]
                (Example.swap 7 "P2" "B" "C" (Chained "r1") "r2")
                [Example.join "P1" "10" "r3"] None World_new eq_refl)
    as [Hnone Hstop].
  split; [exact Hnone|].
  eapply Hstop. vm_compute. reflexivity.
Defined.

(** ** The single swap *)

Section SingleSwap.
Variable BigNumber_from : string → option Z.
Variable BigNumber_toString : Z → string.
Variable math : PoolMath.
Hypothesis from_toString : ∀ z, BigNumber_from (BigNumber_toString z) = Some z.

Lemma updated_credit deltas t0 t1 a0 a1 rest deltas' :
  updated BigNumber_from deltas [t0; t1]
    (BigNumber_toString a0 :: BigNumber_toString a1 :: rest) = Returned deltas' →
  deltas' = credit t1 a1 (credit t0 a0 deltas).
Proof.
  unfold updated, updateDeltas. simpl.
  destruct (updateDelta _ deltas t0 _) as [d0 [[]|e]] eqn:H0; [|done].
  destruct (updateDelta _ d0 t1 _) as [d1 [[]|e]] eqn:H1; [|done].
  intros [= <-].
  apply updateDelta_Returned in H0 as (a & v & [= <-] & Hv & ->).
  apply updateDelta_Returned in H1 as (a' & v' & [= <-] & Hv' & ->).
  rewrite from_toString in Hv, Hv'. by simplify_eq.
Qed.

(** C4.  A request tagged [Swap] whose turn of the loop completes
    contributes exactly two entries, for [assetOut] and [assetIn] in this
    order: the amount the math provider computes as received is added to
    the entry of [assetOut], the amount paid is subtracted from the entry
    of [assetIn], and no other entry changes. *)
Theorem swap_contributes_assetOut_then_assetIn
    poolModel pools deltas s w w' deltas' ledger :
  swap_actionType s = ActionType.Swap →
  relayers w !! relayerModel poolModel = Some ledger →
  multicall_body BigNumber_from (PoolModel_methods math BigNumber_toString)
    poolModel pools deltas (OfSwap s) w = (w', Returned deltas') →
  let r := swap_request s in
  ∃ pool amountIn amountOut,
    pools !! poolId r = Some pool ∧
    (run (resolve (amount r)) ledger).2 = Returned amountIn ∧
    onSwapExactIn math pool (assetIn r) (assetOut r) amountIn = Returned amountOut ∧
    contributions (PoolModel_methods math BigNumber_toString) pools ledger [OfSwap s]
      = [([assetOut r; assetIn r],
          [BigNumber_toString amountOut; BigNumber_toString (- amountIn)])] ∧
    deltas' = credit (assetIn r) (- amountIn) (credit (assetOut r) amountOut deltas).
Proof.
  intros Htag Hledger Hbody r.
  rewrite (multicall_body_step _ _ _ _ _ _ _ ledger Hledger) in Hbody.
  injection Hbody as _ Hstep. revert Hstep.
  unfold step, contributions, contribution. simpl. rewrite Htag. simpl.
  fold r. unfold findPool.
  destruct (pools !! poolId r) as [pool|] eqn:Hpool; simpl; [|done].
  rewrite !run_bind.
  destruct (run (resolve (amount r)) ledger) as [ledger1 [amountIn|e]] eqn:Hin; simpl; [|done].
  rewrite !run_bind.
  destruct (onSwapExactIn math pool (assetIn r) (assetOut r) amountIn)
    as [amountOut|e] eqn:Hout; simpl; [|done].
  destruct (write (swap_outputReference s) amountOut ledger1)
    as [ledger2 [[]|e]] eqn:Hw; simpl; [|done].
  intros Hupd. exists pool, amountIn, amountOut.
  repeat split; try done. by apply updated_credit in Hupd.
Qed.
End SingleSwap.

Lemma fromDecimal_decimal z : Example.fromDecimal (Example.decimal z) = Some z.
Proof.
  unfold Example.fromDecimal, Example.decimal.
  rewrite NilZero.isi.
  - simpl. f_equal. apply DecimalZ.of_to.
  - destruct z; simpl; try discriminate.
    intros [= H]. by apply Unsigned.to_uint_nonnil in H.
  - destruct z; simpl; try discriminate.
    intros [= H]. by apply Unsigned.to_uint_nonnil in H.
Qed.

Lemma swap_contributes_assetOut_then_assetIn_witness :
  let s := {| swap_actionType := ActionType.Swap;
              swap_request := {| poolId := "P1"; assetIn := "A"; assetOut := "B";
                                 amount := Known 7 |};
              swap_funds := Example.funds;
              swap_outputReference := "r1" |} in
  let pools := toDictionary [Example.P1; Example.P2] in
  let r := swap_request s in
  ∃ pool amountIn amountOut,
    pools !! poolId r = Some pool ∧
    (run (resolve (amount r)) RelayerModel_new).2 = Returned amountIn ∧
    onSwapExactIn Example.oneForOne pool (assetIn r) (assetOut r) amountIn
      = Returned amountOut ∧
    contributions Example.poolModel pools RelayerModel_new [OfSwap s]
      = [([assetOut r; assetIn r],
          [Example.decimal amountOut; Example.decimal (- amountIn)])] ∧
    (list_to_map [("B", 7); ("A", -7)] : gmap string Z)
      = credit (assetIn r) (- amountIn) (credit (assetOut r) amountOut ∅).
Proof.
  intros s pools.
  eapply (swap_contributes_assetOut_then_assetIn Example.fromDecimal Example.decimal
            Example.oneForOne fromDecimal_decimal (new_PoolModel 0) pools ∅ s
            (set_relayers [RelayerModel_new] World_new)).
  - reflexivity.
  - reflexivity.
  - vm_compute. reflexivity.
Defined.

(** ** Runs and replays *)

Section ProgFacts.
Context {A : Type}.

Lemma run_mono (p : Prog A) : ∀ ledger ledger' o,
  run p ledger = (ledger', o) → ledger ⊆ ledger'.
Proof.
  induction p as [a|e|ref k IH|ref value k IH]; intros ledger ledger' o; simpl.
  - by intros [= <- _].
  - by intros [= <- _].
  - destruct (read ref ledger); [apply IH | by intros [= <- _]].
  - unfold write. destruct (ledger !! ref) eqn:Href.
    + by intros [= <- _].
    + intros H. apply IH in H. etrans; [|done]. by apply insert_subseteq.
Qed.

Lemma written_cons_Writes ref value acc :
  written (Writes ref value :: acc) = ref :: written acc.
Proof. done. Qed.

Lemma elem_of_written ref acc :
  ref ∈ written acc ↔ ∃ value, Writes ref value ∈ acc.
Proof.
  unfold written. rewrite list_elem_of_omap. split.
  - intros ([r|r v] & Hin & Heq); simplify_eq. by exists v.
  - intros [v Hin]. by exists (Writes ref v).
Qed.

(** A run that completes within [final] is the replay against [final]. *)
Lemma run_replay (p : Prog A) final : ∀ ledger ledger' a,
  run p ledger = (ledger', Returned a) → ledger' ⊆ final →
  replay p final = (accesses p ledger, Returned a) ∧
  (∀ ref value, Writes ref value ∈ accesses p ledger →
                ledger !! ref = None ∧ final !! ref = Some value) ∧
  NoDup (written (accesses p ledger)) ∧
  (∀ ref, ref ∈ written (accesses p ledger) → is_Some (ledger' !! ref)).
Proof.
  induction p as [a0|e|ref k IH|ref value k IH]; intros ledger ledger' a; simpl.
  - intros [= <- <-] _. split_and!; [done| |constructor|].
    + by intros ?? ?%elem_of_nil.
    + by intros ? ?%elem_of_nil.
  - done.
  - unfold read. destruct (ledger !! ref) as [value|] eqn:Href; [|done].
    intros Hrun Hfinal. pose proof (run_mono _ _ _ _ Hrun) as Hmono.
    assert (final !! ref = Some value) as ->.
    { eapply lookup_weaken; [|done]. by eapply lookup_weaken. }
    destruct (IH value _ _ _ Hrun Hfinal) as (-> & Hw & Hnd & Hdom).
    split_and!; try done.
    intros r v [?|Hin]%elem_of_cons; [done|]. by apply Hw.
  - unfold write. destruct (ledger !! ref) eqn:Href; [done|].
    intros Hrun Hfinal. pose proof (run_mono _ _ _ _ Hrun) as Hmono.
    destruct (IH _ _ _ Hrun Hfinal) as (-> & Hw & Hnd & Hdom).
    assert (ledger' !! ref = Some value) as Hset.
    { eapply lookup_weaken; [|done]. apply lookup_insert_eq. }
    split_and!.
    + done.
    + intros r v [[= -> ->]|Hin]%elem_of_cons; [split; [done|by eapply lookup_weaken]|].
      apply Hw in Hin as [Hin ?]. by apply lookup_insert_None in Hin as [? _].
    + rewrite written_cons_Writes. constructor; [|done].
      intros [v Hin]%elem_of_written. apply Hw in Hin as [Hin _].
      by rewrite lookup_insert_eq in Hin.
    + rewrite written_cons_Writes. intros r [->|Hin]%elem_of_cons; [by eexists|].
      by apply Hdom.
Qed.

(** A program whose replay against [final] completes, run on a part of
    [final] that holds none of the references it writes, completes with
    the same result, or stops at a reference not yet written. *)
Lemma replay_run (p : Prog A) final : ∀ acc a ledger,
  replay p final = (acc, Returned a) → ledger ⊆ final →
  (∀ ref value, Writes ref value ∈ acc →
                ledger !! ref = None ∧ final !! ref = Some value) →
  NoDup (written acc) →
  (∃ ledger', run p ledger = (ledger', Returned a) ∧ ledger' ⊆ final ∧
              ∀ ref, is_Some (ledger' !! ref) →
                     is_Some (ledger !! ref) ∨ ref ∈ written acc) ∨
  (∃ ledger' ref, run p ledger = (ledger', Thrown (UnresolvedReferenceError ref))).
Proof.
  induction p as [a0|e|ref k IH|ref value k IH]; intros acc a ledger; simpl.
  - intros [= <- <-] Hsub _ _. left. exists ledger. auto.
  - done.
  - destruct (final !! ref) as [value|] eqn:Hfinal; [|done].
    destruct (replay (k value) final) as [acc' o] eqn:Hreplay.
    intros [= <- ->] Hsub Hw Hnd. unfold read.
    destruct (ledger !! ref) as [value'|] eqn:Href; [|right; eauto].
    assert (value' = value) as ->.
    { pose proof (lookup_weaken _ _ _ _ Href Hsub). congruence. }
    destruct (IH value _ _ ledger Hreplay Hsub) as [(ledger' & Hrun & Hsub' & Hdom)|Hstop];
      [|done|by left; eauto|by right].
    intros r v Hin. apply Hw. by apply elem_of_cons; right.
  - destruct (replay k final) as [acc' o] eqn:Hreplay.
    intros [= <- ->] Hsub Hw Hnd. unfold write.
    destruct (Hw ref value) as [Href Hfinal]; [by apply elem_of_cons; left|].
    rewrite Href. rewrite written_cons_Writes in Hnd. apply NoDup_cons in Hnd as [Hfresh Hnd].
    destruct (IH _ _ (<[ref:=value]> ledger) eq_refl)
      as [(ledger' & Hrun & Hsub' & Hdom)|Hstop]; [| | |left|by right].
    + by apply insert_subseteq_l.
    + intros r v Hin. destruct (Hw r v) as [Hr Hf]; [by apply elem_of_cons; right|].
      split; [|done]. apply lookup_insert_None. split; [done|].
      intros <-. apply Hfresh. apply elem_of_written. eauto.
    + done.
    + exists ledger'. split_and!; [done..|].
      intros r Hr. rewrite written_cons_Writes.
      destruct (Hdom r Hr) as [Hin|Hin].
      * destruct (decide (ref = r)) as [->|Hne]; [right; by apply elem_of_cons; left|].
        left. by rewrite lookup_insert_ne in Hin.
      * right. by apply elem_of_cons; right.
Qed.

(** If moreover the replay reads a reference the ledger does not hold and
    the program does not write, the run stops at an unwritten reference. *)
Lemma replay_unresolved (p : Prog A) final unset : ∀ acc a ledger,
  replay p final = (acc, Returned a) → ledger ⊆ final →
  (∀ ref value, Writes ref value ∈ acc →
                ledger !! ref = None ∧ final !! ref = Some value) →
  NoDup (written acc) →
  Reads unset ∈ acc → ledger !! unset = None → unset ∉ written acc →
  ∃ ledger' ref, run p ledger = (ledger', Thrown (UnresolvedReferenceError ref)).
Proof.
  induction p as [a0|e|ref k IH|ref value k IH]; intros acc a ledger; simpl.
  - intros [= <- <-] _ _ _ Hin. by apply elem_of_nil in Hin.
  - done.
  - destruct (final !! ref) as [value|] eqn:Hfinal; [|done].
    destruct (replay (k value) final) as [acc' o] eqn:Hreplay.
    intros [= <- ->] Hsub Hw Hnd Hin Hunset Hnw. unfold read.
    destruct (ledger !! ref) as [value'|] eqn:Href; [|eauto].
    assert (value' = value) as ->.
    { pose proof (lookup_weaken _ _ _ _ Href Hsub). congruence. }
    apply elem_of_cons in Hin as [[= ->]|Hin]; [congruence|].
    eapply IH; try done.
    intros r v Hr. apply Hw. by apply elem_of_cons; right.
  - destruct (replay k final) as [acc' o] eqn:Hreplay.
    intros [= <- ->] Hsub Hw Hnd Hin Hunset Hnw. unfold write.
    destruct (Hw ref value) as [Href Hfinal]; [by apply elem_of_cons; left|].
    rewrite Href. rewrite written_cons_Writes in Hnd, Hnw.
    apply NoDup_cons in Hnd as [Hfresh Hnd].
    apply not_elem_of_cons in Hnw as [Hne Hnw].
    apply elem_of_cons in Hin as [?|Hin]; [done|].
    eapply (IH _ _ _ eq_refl); try done.
    + by apply insert_subseteq_l.
    + intros r v Hr. destruct (Hw r v) as [Hr' Hf]; [by apply elem_of_cons; right|].
      split; [|done]. apply lookup_insert_None. split; [done|].
      intros <-. apply Hfresh. apply elem_of_written. eauto.
    + by rewrite lookup_insert_ne.
Qed.
End ProgFacts.

(** ** Reordering a batch *)

Section Deltas.
Variable BigNumber_from : string → option Z.

Lemma plain_empty : plain ∅.
Proof. intros t [v Hv]. by rewrite lookup_empty in Hv. Qed.

Lemma updateDelta_plain deltas t amount deltas' :
  plain deltas →
  updateDelta BigNumber_from deltas t amount = (deltas', Returned tt) →
  plain deltas' ∧
  ∀ deltas2, plain deltas2 →
    ∃ deltas2', updateDelta BigNumber_from deltas2 t amount = (deltas2', Returned tt).
Proof.
  intros Hplain H.
  assert (inherited t = false ∧ is_Some (amount ≫= BigNumber_from)) as [Ht [v Hv]].
  { unfold updateDelta in H.
    destruct (deltas !! t) as [current|] eqn:Hcur.
    - split; [apply Hplain; eauto|]. by destruct (amount ≫= BigNumber_from).
    - destruct (inherited t); [done|]. split; [done|].
      by destruct (amount ≫= BigNumber_from). }
  split.
  - apply updateDelta_Returned in H as (a & value & _ & _ & ->).
    intros t' [v' Hv']. destruct (decide (t = t')) as [<-|Hne]; [done|].
    rewrite lookup_insert_ne in Hv' by done. apply Hplain. eauto.
  - intros deltas2 _. unfold updateDelta. rewrite Ht, Hv.
    destruct (deltas2 !! t); eauto.
Qed.

Lemma updateDeltas_from_plain assets : ∀ i deltas amounts deltas',
  plain deltas →
  updateDeltas_from BigNumber_from i deltas assets amounts = (deltas', Returned tt) →
  plain deltas' ∧
  ∀ deltas2, plain deltas2 →
    ∃ deltas2', updateDeltas_from BigNumber_from i deltas2 assets amounts
                  = (deltas2', Returned tt) ∧ plain deltas2'.
Proof.
  induction assets as [|t assets IH]; intros i deltas amounts deltas' Hplain; simpl.
  - intros [= <-]. split; [done|]. intros deltas2 H2. eauto.
  - destruct (updateDelta _ deltas t (amounts !! i)) as [deltas1 [[]|e]] eqn:H1; [|done].
    intros H. destruct (updateDelta_plain _ _ _ _ Hplain H1) as [Hplain1 Hany].
    destruct (IH _ _ _ _ Hplain1 H) as [Hplain' Hrest]. split; [done|].
    intros deltas2 H2. destruct (Hany _ H2) as [deltas2' H2'].
    rewrite H2'. apply Hrest.
    by eapply updateDelta_plain.
Qed.

Lemma updated_accepted deltas tokens amounts deltas' :
  plain deltas →
  updated BigNumber_from deltas tokens amounts = Returned deltas' →
  plain deltas' ∧ accepted BigNumber_from (tokens, amounts).
Proof.
  unfold accepted, updated, updateDeltas. intros Hplain H. simpl.
  destruct (updateDeltas_from _ _ deltas _ _) as [d [[]|e]] eqn:Hd; [|done].
  injection H as ->.
  destruct (updateDeltas_from_plain _ _ _ _ _ Hplain Hd) as [Hplain' Hany].
  split; [done|]. intros deltas2 H2. simpl.
  destruct (Hany _ H2) as (deltas2' & -> & ?). eauto.
Qed.
End Deltas.

Section Reordering.
Variable BigNumber_from : string → option Z.
Variable executor : Executor.
Variable pools : PoolDictionary.

Local Abbreviation steps_ := (steps BigNumber_from executor pools).
Local Abbreviation step_ := (step BigNumber_from executor pools).

Lemma step_mono ledger deltas call ledger' o :
  step_ ledger deltas call = (ledger', o) → ledger ⊆ ledger'.
Proof.
  unfold step.
  destruct (run _ ledger) as [ledger1 [[tokens amounts]|e]] eqn:Hrun;
    intros [= <- _]; by eapply run_mono.
Qed.

Lemma steps_mono rawCalls : ∀ ledger deltas ledger' o,
  steps_ ledger deltas rawCalls = (ledger', o) → ledger ⊆ ledger'.
Proof.
  induction rawCalls as [|call rest IH]; intros ledger deltas ledger' o; simpl.
  - by intros [= <- _].
  - destruct (step_ ledger deltas call) as [ledger1 [deltas1|e]] eqn:Hstep.
    + intros H. etrans; [by eapply step_mono|by eapply IH].
    + intros [= <- _]. by eapply step_mono.
Qed.

Variable final : RelayerModel.
Local Abbreviation writes_ := (writes_of executor pools final).
Local Abbreviation replayable_ := (replayable BigNumber_from executor pools final).

(** What the execution of a batch tells about each of its requests. *)
Lemma steps_replayable rawCalls : ∀ ledger deltas ledger' deltas',
  steps_ ledger deltas rawCalls = (ledger', Returned deltas') →
  ledger' ⊆ final → plain deltas →
  Forall replayable_ rawCalls ∧
  NoDup (rawCalls ≫= writes_) ∧
  (∀ ref, ref ∈ rawCalls ≫= writes_ → ledger !! ref = None).
Proof.
  induction rawCalls as [|call rest IH]; intros ledger deltas ledger' deltas'; simpl.
  - intros _ _ _. split_and!; [constructor|constructor|]. by intros ? ?%elem_of_nil.
  - unfold step.
    destruct (run _ ledger) as [ledger1 [[tokens amounts]|e]] eqn:Hrun; [|done].
    destruct (updated _ deltas tokens amounts) as [deltas1|e] eqn:Hupd; [|done].
    intros Hrest Hfinal Hplain.
    pose proof (steps_mono _ _ _ _ _ Hrest) as Hmono.
    destruct (updated_accepted _ _ _ _ _ Hplain Hupd) as [Hplain1 Hacc].
    destruct (IH _ _ _ _ Hrest Hfinal Hplain1) as (Hgood & Hnd & Hfresh).
    assert (ledger1 ⊆ final) as H1 by by etrans.
    destruct (run_replay _ final _ _ _ Hrun H1) as (Hreplay & Hw & Hndw & Hdom).
    assert (writes_ call = written (accesses (contribution executor call pools) ledger))
      as Hwrites by by unfold writes_of; rewrite Hreplay.
    split_and!.
    + constructor; [|done]. eexists _, _. split_and!; [done| |done].
      intros r v Hin. by apply Hw in Hin as [_ ?].
    + rewrite Hwrites. apply NoDup_app. split_and!; [done| |done].
      intros r Hr Hin. apply Hfresh in Hin. apply Hdom in Hr as [v Hv]. congruence.
    + rewrite Hwrites. intros r [Hr|Hr]%elem_of_app.
      * apply elem_of_written in Hr as [v Hin]. by apply Hw in Hin as [? _].
      * apply Hfresh in Hr. by eapply lookup_weaken_None, run_mono.
Qed.

(** Requests of a batch that executed, run in any order on a part of the
    final ledger they have not written to: they all complete, or the run
    stops at a reference not yet written. *)
Lemma steps_replayed rawCalls : ∀ ledger deltas,
  Forall replayable_ rawCalls → NoDup (rawCalls ≫= writes_) →
  (∀ ref, ref ∈ rawCalls ≫= writes_ → ledger !! ref = None) →
  ledger ⊆ final → plain deltas →
  (∃ ledger' deltas',
     steps_ ledger deltas rawCalls = (ledger', Returned deltas') ∧
     ledger' ⊆ final ∧ plain deltas' ∧
     ∀ ref, is_Some (ledger' !! ref) →
            is_Some (ledger !! ref) ∨ ref ∈ rawCalls ≫= writes_) ∨
  (∃ ledger' ref,
     steps_ ledger deltas rawCalls = (ledger', Thrown (UnresolvedReferenceError ref))).
Proof.
  induction rawCalls as [|call rest IH]; intros ledger deltas Hgood Hnd Hfresh Hsub Hplain;
    simpl.
  - left. exists ledger, deltas. auto.
  - apply Forall_cons in Hgood as [(acc & [tokens amounts] & Hreplay & Hw & Hacc) Hgood].
    simpl in Hnd, Hfresh. apply NoDup_app in Hnd as (Hndw & Hdisj & Hnd).
    assert (writes_ call = written acc) as Hwrites
      by by unfold writes_of; rewrite Hreplay.
    unfold step.
    destruct (replay_run _ final _ _ ledger Hreplay Hsub)
      as [(ledger1 & Hrun & Hsub1 & Hdom)|(ledger1 & r & Hrun)].
    + intros r v Hin. split; [|by apply Hw in Hin].
      apply Hfresh, elem_of_app. left. rewrite Hwrites. apply elem_of_written. eauto.
    + by rewrite <- Hwrites.
    + rewrite Hrun. destruct (Hacc _ Hplain) as (deltas1 & Hupd & Hplain1).
      simpl in Hupd. rewrite Hupd.
      destruct (IH ledger1 deltas1 Hgood Hnd)
        as [(ledger' & deltas' & Hsteps & Hsub' & Hplain' & Hdom')|Hstop];
        [| | |left|by right]; try done.
      * intros r Hr. destruct (ledger1 !! r) as [v|] eqn:Hv; [|done].
        destruct (Hdom r) as [[v' Hv']|Hin]; [by eauto| |].
        -- rewrite Hfresh in Hv'; [done|]. apply elem_of_app. by right.
        -- rewrite <- Hwrites in Hin. by apply Hdisj in Hin.
      * exists ledger', deltas'. split_and!; [done..|].
        intros r Hr. destruct (Hdom' r Hr) as [Hin|Hin].
        -- destruct (Hdom r Hin) as [?|Hin']; [by left|].
           right. apply elem_of_app. left. by rewrite Hwrites.
        -- right. apply elem_of_app. by right.
    + right. rewrite Hrun. eauto.
Qed.

Lemma steps_app_Returned xs : ∀ ys ledger deltas ledger' deltas',
  steps_ ledger deltas (xs ++ ys) = (ledger', Returned deltas') →
  ∃ ledger1 deltas1,
    steps_ ledger deltas xs = (ledger1, Returned deltas1) ∧
    steps_ ledger1 deltas1 ys = (ledger', Returned deltas').
Proof.
  induction xs as [|call xs IH]; intros ys ledger deltas ledger' deltas'; simpl.
  - eauto.
  - destruct (step_ ledger deltas call) as [ledger1 [deltas1|e]]; [apply IH | done].
Qed.

(** In a batch that executed, the accesses of a request are those of its
    replay against the final ledger. *)
Lemma executed_accesses xs call ys deltas' :
  steps_ RelayerModel_new ∅ (xs ++ call :: ys) = (final, Returned deltas') →
  (replay (contribution executor call pools) final).1
    = accesses (contribution executor call pools)
        (ledger_after BigNumber_from executor pools xs).
Proof.
  intros H. apply steps_app_Returned in H as (ledger1 & deltas1 & Hxs & H).
  unfold ledger_after. rewrite Hxs. simpl in *. unfold step in H.
  destruct (run _ ledger1) as [ledger2 [[tokens amounts]|e]] eqn:Hrun; [|done].
  destruct (updated _ deltas1 tokens amounts) as [deltas2|e]; [|done].
  apply steps_mono in H.
  by destruct (run_replay _ final _ _ _ Hrun H) as (-> & _).
Qed.
End Reordering.

Section Multiset.
Context {T : Type}.

Lemma submseteq_NoDup (l k : list T) : l ⊆+ k → NoDup k → NoDup l.
Proof.
  intros [k' Hk]%submseteq_Permutation Hnd. rewrite Hk in Hnd.
  by apply NoDup_app in Hnd as [? _].
Qed.

Lemma submseteq_cons_fresh (x : T) (l k : list T) :
  l ⊆+ k → x ∈ k → x ∉ l → x :: l ⊆+ k.
Proof.
  intros Hl [k' Hk]%elem_of_Permutation Hx. rewrite Hk in Hl |- *.
  apply submseteq_cons_r in Hl as [Hl|(l' & Hl' & _)].
  - by apply submseteq_skip.
  - destruct Hx. rewrite Hl'. by left.
Qed.
End Multiset.

Section Order.
Variable BigNumber_from : string → option Z.
Variable getPools : nat → option (list Pool).
Variable executor : Executor.

Lemma reordered_steps_stop pools pre producer mid consumer post before rest
    ref value final deltas :
  steps BigNumber_from executor pools RelayerModel_new ∅
    (pre ++ producer :: mid ++ consumer :: post) = (final, Returned deltas) →
  Writes ref value ∈ accesses (contribution executor producer pools)
                       (ledger_after BigNumber_from executor pools pre) →
  Reads ref ∈ accesses (contribution executor consumer pools)
                (ledger_after BigNumber_from executor pools (pre ++ producer :: mid)) →
  before ++ [consumer] ⊆+ pre ++ producer :: mid ++ consumer :: post →
  producer ∉ before →
  ∃ ledger' unset,
    steps BigNumber_from executor pools RelayerModel_new ∅ (before ++ consumer :: rest)
      = (ledger', Thrown (UnresolvedReferenceError unset)).
Proof.
  intros Hsteps Hproducer Hconsumer Hsub Hnotin.
  set (executed := pre ++ producer :: mid ++ consumer :: post) in *.
  destruct (steps_replayable BigNumber_from executor pools final executed _ _ _ _ Hsteps)
    as (Hgood & Hnd & _); [done|apply plain_empty|].
  rewrite <- (executed_accesses _ _ _ final _ _ _ _ Hsteps) in Hproducer.
  assert (executed = (pre ++ producer :: mid) ++ consumer :: post) as Hassoc
    by by subst executed; rewrite <- app_assoc.
  rewrite Hassoc in Hsteps.
  rewrite <- (executed_accesses _ _ _ final _ _ _ _ Hsteps) in Hconsumer.
  clear Hsteps.
  assert (ref ∈ writes_of executor pools final producer) as Hwp.
  { unfold writes_of. apply elem_of_written. eauto. }
  assert (ref ∉ writes_of executor pools final consumer) as Hwc.
  { subst executed. rewrite bind_app, bind_cons in Hnd.
    apply NoDup_app in Hnd as (_ & _ & Hnd).
    apply NoDup_app in Hnd as (_ & Hdisj & _).
    intros Hin. apply (Hdisj _ Hwp). apply list_elem_of_bind.
    exists consumer. split; [done|]. apply elem_of_app. right. by left. }
  assert (before ⊆+ executed) as Hbefore.
  { etrans; [|done]. by apply submseteq_inserts_r. }
  assert (ref ∉ before ≫= writes_of executor pools final) as Hunset.
  { assert (producer :: before ⊆+ executed) as Hp.
    { apply submseteq_cons_fresh; [done| |done].
      subst executed. apply elem_of_app. right. by left. }
    apply (bind_submseteq (writes_of executor pools final)) in Hp.
    apply submseteq_NoDup in Hp; [|done]. rewrite bind_cons in Hp.
    apply NoDup_app in Hp as (_ & Hdisj & _). by apply Hdisj. }
  assert (NoDup ((before ++ [consumer]) ≫= writes_of executor pools final)) as Hndb.
  { eapply submseteq_NoDup; [|done]. by apply bind_submseteq. }
  rewrite bind_app in Hndb. apply NoDup_app in Hndb as (Hndb & Hdisj & Hndc).
  rewrite bind_cons in Hndc, Hdisj.
  change ([] ≫= writes_of executor pools final) with (@nil Ref) in Hndc, Hdisj.
  rewrite app_nil_r in Hndc, Hdisj.
  assert (Forall (replayable BigNumber_from executor pools final) (before ++ [consumer]))
    as Hall.
  { apply Forall_forall. intros c Hc. rewrite Forall_forall in Hgood.
    apply Hgood. by eapply elem_of_submseteq. }
  apply Forall_app in Hall as [Hgb Hgc]. rewrite Forall_singleton in Hgc.
  destruct (steps_replayed BigNumber_from executor pools final before
              RelayerModel_new ∅ Hgb Hndb)
    as [(ledger & deltas1 & Hrun & Hsubl & Hplain & Hdom)|(ledger & unset & Hstop)].
  - done.
  - apply map_empty_subseteq.
  - apply plain_empty.
  - rewrite steps_app, Hrun. simpl. unfold step.
    destruct Hgc as (acc & c & Hreplay & Hw & _).
    unfold writes_of in Hwc, Hdisj. rewrite Hreplay in Hwc, Hconsumer, Hdisj.
    simpl in *.
    destruct (replay_unresolved _ final ref acc c ledger Hreplay Hsubl)
      as (ledger' & unset & ->); [| | | | |by eauto].
    + intros r v Hin. split; [|by apply Hw].
      destruct (ledger !! r) as [v'|] eqn:Hr; [|done].
      destruct (Hdom r) as [[? Hempty]|Hin']; [by eauto|done|].
      destruct (Hdisj _ Hin'). apply elem_of_written. eauto.
    + by unfold writes_of in Hndc; rewrite Hreplay in Hndc.
    + done.
    + destruct (ledger !! ref) as [v'|] eqn:Hr; [|done].
      destruct (Hdom ref) as [[? Hempty]|Hin']; [by eauto|done|done].
    + done.
  - rewrite steps_app, Hstop. eauto.
Qed.

(** The general form.  Let [multicall] execute a batch in which the
    producer writes [ref] and the consumer, later, reads it.  A batch that
    reaches the consumer through requests taken from the executed one, each
    at most as often as it occurs there and none of them the producer,
    throws an [UnresolvedReferenceError], whatever follows the consumer. *)
Lemma consumer_ahead_of_producer_stops
    refresh w pools pre producer mid consumer post ref value before after w' deltas :
  dictionary_obtained getPools refresh w = Returned pools →
  multicall BigNumber_from getPools executor
    (pre ++ producer :: mid ++ consumer :: post) refresh w = (w', Returned deltas) →
  Writes ref value ∈ accesses (contribution executor producer pools)
                       (ledger_after BigNumber_from executor pools pre) →
  Reads ref ∈ accesses (contribution executor consumer pools)
                (ledger_after BigNumber_from executor pools (pre ++ producer :: mid)) →
  before ++ [consumer] ⊆+ pre ++ producer :: mid ++ consumer :: post →
  producer ∉ before →
  ∃ unset,
    (multicall BigNumber_from getPools executor (before ++ consumer :: after) refresh w).2
      = Thrown (UnresolvedReferenceError unset).
Proof.
  intros Hpools Hrun Hproducer Hconsumer Hsub Hnotin.
  apply multicall_Returned in Hrun as (pools' & final & Hpools' & Hsteps & _).
  rewrite Hpools in Hpools'. injection Hpools' as <-.
  destruct (reordered_steps_stop pools pre producer mid consumer post before after
              ref value final deltas Hsteps Hproducer Hconsumer Hsub Hnotin)
    as (ledger' & unset & Hstop).
  exists unset. rewrite multicall_steps.
  unfold dictionary_obtained, new_RelayerModel in Hpools. simpl in Hpools.
  destruct (poolsDictionary _ _ _) as [w1 [pools1|e]]; [|done].
  simpl in Hpools. injection Hpools as ->. simpl. by rewrite Hstop.
Qed.

(** C8.  Let [multicall] execute a batch in which one request, the
    producer, writes an output reference that a later request, the
    consumer, reads.  Every reordering of the batch in which that consumer
    comes before the producer makes [multicall] throw an
    [UnresolvedReferenceError]: a read of a reference never written fails
    with that error, and the ledger of a call starts empty. *)
Theorem consumer_before_producer_is_unresolved
    refresh w pools pre producer mid consumer post ref value before after w' deltas :
  dictionary_obtained getPools refresh w = Returned pools →
  multicall BigNumber_from getPools executor
    (pre ++ producer :: mid ++ consumer :: post) refresh w = (w', Returned deltas) →
  Writes ref value ∈ accesses (contribution executor producer pools)
                       (ledger_after BigNumber_from executor pools pre) →
  Reads ref ∈ accesses (contribution executor consumer pools)
                (ledger_after BigNumber_from executor pools (pre ++ producer :: mid)) →
  before ++ consumer :: after ≡ₚ pre ++ producer :: mid ++ consumer :: post →
  producer ∉ before →
  ∃ unset,
    (multicall BigNumber_from getPools executor (before ++ consumer :: after) refresh w).2
      = Thrown (UnresolvedReferenceError unset).
Proof.
  intros Hpools Hrun Hproducer Hconsumer Hperm Hnotin.
  eapply consumer_ahead_of_producer_stops; try done.
  rewrite <- Hperm. apply submseteq_app; [done|].
  by apply submseteq_skip, submseteq_nil_l.
Qed.
End Order.


Lemma consumer_before_producer_is_unresolved_witness :
  ∃ unset,
    (Example.run_multicall Example.online
       ([Example.join "P1" "10" "bpt"]
          ++ Example.swap ActionType.Swap "P2" "B" "C" (Chained "r1") "r2"
          :: [Example.swap ActionType.Swap "P1" "A" "B" (Known 7) "r1"])
       None World_new).2
    = Thrown (UnresolvedReferenceError unset).
Proof.
  eapply (consumer_before_producer_is_unresolved Example.fromDecimal Example.online
            Example.poolModel None World_new (toDictionary [Example.P1; Example.P2])
            [Example.join "P1" "10" "bpt"]
            (Example.swap ActionType.Swap "P1" "A" "B" (Known 7) "r1")
            []
            (Example.swap ActionType.Swap "P2" "B" "C" (Chained "r1") "r2")
            []
            "r1" 7
            [Example.join "P1" "10" "bpt"]
            [Example.swap ActionType.Swap "P1" "A" "B" (Known 7) "r1"]).
  - vm_compute. reflexivity.
  - vm_compute. reflexivity.
  - vm_compute. apply elem_of_cons. left. reflexivity.
  - vm_compute. apply elem_of_cons. left. reflexivity.
  - simpl. apply perm_skip, perm_swap.
  - intros Hin. apply elem_of_cons in Hin as [Heq|Hin]; [discriminate|].
    by apply elem_of_nil in Hin.
Defined.

(** * Further properties *)

(** ** [updateDeltas] *)

Section UpdateDeltas.
Variable BigNumber_from : string → option Z.

Lemma updateDelta_Returned_iff deltas t amount :
  (updateDelta BigNumber_from deltas t amount).2 = Returned tt ↔
  mergeable BigNumber_from deltas t amount.
Proof.
  unfold updateDelta, mergeable.
  destruct (deltas !! t) as [current|] eqn:Ht, (inherited t) eqn:Hi,
    (amount ≫= BigNumber_from) as [v|] eqn:Hv; simpl; split;
    try done; try (intros _; split; eauto; done);
    try (by intros [[[]|] ?]); try (by intros [? []]).
Qed.

Lemma updateDelta_lookup_ne deltas t amount t' :
  t ≠ t' → (updateDelta BigNumber_from deltas t amount).1 !! t' = deltas !! t'.
Proof.
  intros Hne. unfold updateDelta.
  repeat case_match; simpl; try done; by rewrite lookup_insert_ne.
Qed.

Lemma updateDelta_is_Some deltas t amount t' :
  is_Some (deltas !! t') →
  is_Some ((updateDelta BigNumber_from deltas t amount).1 !! t').
Proof.
  intros H. destruct (decide (t = t')) as [<-|Hne];
    [|by rewrite updateDelta_lookup_ne].
  unfold updateDelta. repeat case_match; simpl; try done;
    rewrite ?lookup_insert_eq; eauto.
Qed.

Lemma updateDelta_mergeable deltas t amount t' amount' :
  mergeable BigNumber_from deltas t amount →
  mergeable BigNumber_from (updateDelta BigNumber_from deltas t amount).1 t' amount' ↔
  mergeable BigNumber_from deltas t' amount'.
Proof.
  intros [Ht Ha]. unfold mergeable. split; intros [H ?]; (split; [|done]).
  - destruct H as [H|H]; [|by right].
    destruct (decide (t = t')) as [<-|Hne]; [done|].
    left. by rewrite updateDelta_lookup_ne in H.
  - destruct H as [H|H]; [|by right]. left. by apply updateDelta_is_Some.
Qed.

Lemma updateDeltas_from_Returned_iff assets : ∀ i deltas amounts,
  (updateDeltas_from BigNumber_from i deltas assets amounts).2 = Returned tt ↔
  ∀ j t, assets !! j = Some t →
         mergeable BigNumber_from deltas t (amounts !! (i + j)%nat).
Proof.
  induction assets as [|t0 assets IH]; intros i deltas amounts; simpl.
  - split; [by intros _ j t ?|done].
  - pose proof (updateDelta_Returned_iff deltas t0 (amounts !! i)) as Hhead.
    destruct (updateDelta _ deltas t0 (amounts !! i)) as [deltas1 [[]|e]] eqn:H0;
      simpl in Hhead.
    + assert (mergeable BigNumber_from deltas t0 (amounts !! i)) as Hm
        by by apply Hhead.
      rewrite IH. split.
      * intros H [|j] t Hj; simpl in Hj.
        -- injection Hj as <-. by rewrite Nat.add_0_r.
        -- specialize (H j t Hj). rewrite Nat.add_succ_r.
           replace deltas1
             with (updateDelta BigNumber_from deltas t0 (amounts !! i)).1 in H
             by by rewrite H0.
           by apply updateDelta_mergeable in H.
      * intros H j t Hj. specialize (H (S j) t Hj). rewrite Nat.add_succ_r in H.
        replace deltas1 with (updateDelta BigNumber_from deltas t0 (amounts !! i)).1
          by by rewrite H0.
        by apply updateDelta_mergeable.
    + split; [done|]. intros H. specialize (H 0%nat t0 eq_refl).
      rewrite Nat.add_0_r in H. apply Hhead in H. done.
Qed.

Lemma updateDeltas_Returned_iff deltas assets amounts :
  (updateDeltas BigNumber_from deltas assets amounts).2 = Returned tt ↔
  ∀ i t, assets !! i = Some t →
    (is_Some (deltas !! t) ∨ inherited t = false) ∧
    ∃ a value, amounts !! i = Some a ∧ BigNumber_from a = Some value.
Proof.
  unfold updateDeltas. rewrite updateDeltas_from_Returned_iff.
  unfold mergeable. simpl.
  split; intros H i t Hi; destruct (H i t Hi) as [H1 H2]; (split; [done|]).
  - destruct H2 as [v Hv]. destruct (amounts !! i) as [a|]; [|done].
    simpl in Hv. eauto.
  - destruct H2 as (a & v & -> & Hv). simpl. eauto.
Qed.

(** X1.  [updateDeltas] returns exactly when every asset is the name of an
    entry of [deltas] or a name not inherited from [Object.prototype], and
    [amounts] holds, at the index of the asset, a string [BigNumber.from]
    accepts. *)
Theorem updateDeltas_returns_iff deltas assets amounts :
  (updateDeltas BigNumber_from deltas assets amounts).2 = Returned tt ↔
  ∀ i t, assets !! i = Some t →
    (is_Some (deltas !! t) ∨ inherited t = false) ∧
    ∃ a value, amounts !! i = Some a ∧ BigNumber_from a = Some value.
Proof. apply updateDeltas_Returned_iff. Qed.

Lemma updateDeltas_from_take assets : ∀ i deltas amounts,
  updateDeltas_from BigNumber_from i deltas assets (take (i + length assets) amounts)
  = updateDeltas_from BigNumber_from i deltas assets amounts.
Proof.
  induction assets as [|t0 assets IH]; intros i deltas amounts; simpl; [done|].
  rewrite lookup_take_lt by lia.
  destruct (updateDelta _ deltas t0 (amounts !! i)) as [deltas1 [[]|e]]; [|done].
  replace (i + S (length assets))%nat with (S i + length assets)%nat by lia.
  apply IH.
Qed.

(** X2.  Amounts past the number of assets are never read: the outcome and
    the contents of [deltas] are those for [amounts] cut to the length of
    [assets]. *)
Theorem updateDeltas_ignores_surplus_amounts deltas assets amounts :
  updateDeltas BigNumber_from deltas assets amounts
  = updateDeltas BigNumber_from deltas assets (take (length assets) amounts).
Proof. unfold updateDeltas. symmetry. apply (updateDeltas_from_take assets 0). Qed.

Lemma updateDeltas_from_frame assets : ∀ i deltas amounts,
  (∀ t, t ∉ assets →
     (updateDeltas_from BigNumber_from i deltas assets amounts).1 !! t = deltas !! t) ∧
  (∀ t, is_Some (deltas !! t) →
     is_Some ((updateDeltas_from BigNumber_from i deltas assets amounts).1 !! t)).
Proof.
  induction assets as [|t0 assets IH]; intros i deltas amounts; simpl; [done|].
  pose proof (updateDelta_lookup_ne deltas t0 (amounts !! i)) as Hne.
  pose proof (updateDelta_is_Some deltas t0 (amounts !! i)) as Hsome.
  destruct (updateDelta _ deltas t0 (amounts !! i)) as [deltas1 [[]|e]]; simpl in *.
  - destruct (IH (S i) deltas1 amounts) as [IH1 IH2]. split.
    + intros t [Hne0 Hin]%not_elem_of_cons. rewrite IH1 by done. by apply Hne.
    + intros t Ht. by apply IH2, Hsome.
  - split; [|done]. intros t [Hne0 Hin]%not_elem_of_cons. by apply Hne.
Qed.

(** X3.  Whether it returns or throws, [updateDeltas] leaves the entry of
    every token that is not among [assets] as it was. *)
Theorem updateDeltas_keeps_other_entries deltas assets amounts t :
  t ∉ assets →
  (updateDeltas BigNumber_from deltas assets amounts).1 !! t = deltas !! t.
Proof. apply updateDeltas_from_frame. Qed.

(** X4.  Whether it returns or throws, [updateDeltas] removes no entry. *)
Theorem updateDeltas_never_removes_an_entry deltas assets amounts t :
  is_Some (deltas !! t) →
  is_Some ((updateDeltas BigNumber_from deltas assets amounts).1 !! t).
Proof. apply updateDeltas_from_frame. Qed.

Lemma updateDeltas_from_drop assets : ∀ i deltas amounts,
  updateDeltas_from BigNumber_from i deltas assets amounts
  = updateDeltas_from BigNumber_from 0 deltas assets (drop i amounts).
Proof.
  assert (∀ names i k deltas amounts,
    updateDeltas_from BigNumber_from (i + k) deltas names amounts
    = updateDeltas_from BigNumber_from k deltas names (drop i amounts)) as H.
  { intros names.
    induction names as [|t0 names IH]; intros i k deltas amounts; simpl; [done|].
    rewrite lookup_drop.
    destruct (updateDelta _ deltas t0 (amounts !! (i + k)%nat)) as [deltas1 [[]|e]];
      [|done].
    rewrite <- IH. f_equal. lia. }
  intros i deltas amounts. rewrite <- H. f_equal. lia.
Qed.

Lemma updateDeltas_from_app assets1 : ∀ assets2 i deltas amounts,
  updateDeltas_from BigNumber_from i deltas (assets1 ++ assets2) amounts
  = match updateDeltas_from BigNumber_from i deltas assets1 amounts with
    | (deltas1, Returned _) =>
        updateDeltas_from BigNumber_from (i + length assets1) deltas1 assets2 amounts
    | (deltas1, Thrown e) => (deltas1, Thrown e)
    end.
Proof.
  induction assets1 as [|t0 assets1 IH]; intros assets2 i deltas amounts; simpl.
  - by rewrite Nat.add_0_r.
  - destruct (updateDelta _ deltas t0 (amounts !! i)) as [deltas1 [[]|e]]; [|done].
    rewrite IH.
    by replace (S i + length assets1)%nat with (i + S (length assets1))%nat by lia.
Qed.

(** X5.  Merging a concatenation is merging its parts in turn: the second
    part is merged, with the amounts left over, into what the first part
    has made of [deltas], and is not looked at when the first part
    throws. *)
Theorem updateDeltas_app deltas assets1 assets2 amounts :
  updateDeltas BigNumber_from deltas (assets1 ++ assets2) amounts
  = match updateDeltas BigNumber_from deltas assets1 amounts with
    | (deltas1, Returned _) =>
        updateDeltas BigNumber_from deltas1 assets2 (drop (length assets1) amounts)
    | (deltas1, Thrown e) => (deltas1, Thrown e)
    end.
Proof.
  unfold updateDeltas. rewrite updateDeltas_from_app. simpl.
  destruct (updateDeltas_from _ 0 deltas assets1 amounts) as [deltas1 [[]|e]]; [|done].
  apply updateDeltas_from_drop.
Qed.

Lemma amount_for_pairs t (pairs : list (Address * string)) :
  amount_for BigNumber_from t (pairs.*1, pairs.*2)
  = foldr (fun '(t', a) total =>
             if decide (t' = t) then default 0 (BigNumber_from a) + total else total)
          0 pairs.
Proof. unfold amount_for. simpl. by rewrite zip_fst_snd. Qed.

Lemma amount_for_Permutation t (pairs pairs' : list (Address * string)) :
  pairs ≡ₚ pairs' →
  amount_for BigNumber_from t (pairs.*1, pairs.*2)
  = amount_for BigNumber_from t (pairs'.*1, pairs'.*2).
Proof.
  intros Hperm. rewrite !amount_for_pairs.
  apply (foldr_permutation (=)); [solve_proper| |done].
  intros j1 [t1 a1] j2 [t2 a2] b _ _ _. repeat case_decide; lia.
Qed.

(** X6.  When [updateDeltas] returns, the order of the assets does not
    matter: the same assets, each with its amount, given in any other
    order make [updateDeltas] return with the same contents of
    [deltas]. *)
Theorem updateDeltas_order_irrelevant deltas (pairs pairs' : list (Address * string))
    deltas' :
  pairs ≡ₚ pairs' →
  updateDeltas BigNumber_from deltas pairs.*1 pairs.*2 = (deltas', Returned tt) →
  updateDeltas BigNumber_from deltas pairs'.*1 pairs'.*2 = (deltas', Returned tt).
Proof.
  intros Hperm H.
  assert ((updateDeltas BigNumber_from deltas pairs'.*1 pairs'.*2).2 = Returned tt) as H'.
  { apply updateDeltas_Returned_iff. intros i t Hi.
    apply list_lookup_fmap_Some in Hi as ([t' a] & -> & Hi). simpl in *.
    assert ((t', a) ∈ pairs) as Hin.
    { rewrite Hperm. by eapply list_elem_of_lookup_2. }
    apply list_elem_of_lookup in Hin as [j Hj].
    assert ((updateDeltas BigNumber_from deltas pairs.*1 pairs.*2).2 = Returned tt) as Hok
      by by rewrite H.
    rewrite updateDeltas_Returned_iff in Hok.
    destruct (Hok j t') as [H1 (a' & v & Ha' & Hv)].
    { by rewrite list_lookup_fmap, Hj. }
    rewrite list_lookup_fmap, Hj in Ha'. injection Ha' as <-.
    split; [done|]. exists a, v. by rewrite list_lookup_fmap, Hi. }
  destruct (updateDeltas _ deltas pairs'.*1 pairs'.*2) as [deltas'' [[]|e]] eqn:H2;
    [|done].
  f_equal. apply map_eq. intros t. unfold updateDeltas in *.
  pose proof (updateDeltas_from_Returned _ _ _ _ _ _ H t) as E1.
  pose proof (updateDeltas_from_Returned _ _ _ _ _ _ H2 t) as E2.
  rewrite !drop_0, (amount_for_Permutation t _ _ Hperm) in E1.
  etrans; [exact E2|]. symmetry. etrans; [exact E1|].
  rewrite drop_0. repeat case_decide; try done.
  - exfalso. by rewrite <- Hperm in *.
  - exfalso. by rewrite <- Hperm in *.
Qed.

Lemma updateDeltas_from_Thrown_because names : ∀ i deltas amounts deltas' e,
  updateDeltas_from BigNumber_from i deltas names amounts = (deltas', Thrown e) →
  (e = TypeError ∧ ∃ t, t ∈ names ∧ inherited t = true ∧ deltas !! t = None) ∨
  (e = InvalidBigNumber ∧
   ∃ j t, names !! j = Some t ∧ amounts !! (i + j)%nat ≫= BigNumber_from = None).
Proof.
  induction names as [|t0 names IH]; intros i deltas amounts deltas' e; simpl; [done|].
  pose proof (updateDelta_is_Some deltas t0 (amounts !! i)) as Hsome.
  destruct (updateDelta _ deltas t0 (amounts !! i)) as [deltas1 [[]|e1]] eqn:H0.
  - intros H. apply IH in H as [(-> & t & Hin & Hi & Ht)|(-> & j & t & Hj & Ha)].
    + left. split; [done|]. exists t. split_and!; [by apply elem_of_cons; right|done|].
      destruct (deltas !! t) eqn:Hd; [|done].
      destruct (Hsome t) as [? Hx]; [by eauto|]. simpl in Hx. congruence.
    + right. split; [done|]. exists (S j), t. split; [done|].
      by rewrite Nat.add_succ_r.
  - intros [= <- <-]. unfold updateDelta in H0.
    destruct (deltas !! t0) eqn:Hd; [|destruct (inherited t0) eqn:Hi].
    + destruct (amounts !! i ≫= BigNumber_from) eqn:Ha; [done|]. injection H0 as <- <-.
      right. split; [done|]. exists 0%nat, t0. by rewrite Nat.add_0_r.
    + injection H0 as <- <-. left. split; [done|]. exists t0.
      split_and!; [by apply elem_of_cons; left|done|done].
    + destruct (amounts !! i ≫= BigNumber_from) eqn:Ha; [done|]. injection H0 as <- <-.
      right. split; [done|]. exists 0%nat, t0. by rewrite Nat.add_0_r.
Qed.

(** X7.  [updateDeltas] throws for one of two reasons only: a [TypeError]
    because some asset is a name inherited from [Object.prototype] of which
    [deltas] has no entry, or the argument error of [BigNumber.from]
    because, at the index of some asset, [amounts] holds nothing or a
    string [BigNumber.from] rejects. *)
Theorem updateDeltas_throws_because deltas names amounts deltas' e :
  updateDeltas BigNumber_from deltas names amounts = (deltas', Thrown e) →
  (e = TypeError ∧ ∃ t, t ∈ names ∧ inherited t = true ∧ deltas !! t = None) ∨
  (e = InvalidBigNumber ∧
   ∃ i t, names !! i = Some t ∧ amounts !! i ≫= BigNumber_from = None).
Proof. apply (updateDeltas_from_Thrown_because names 0). Qed.

Lemma net_insert_fresh t value (deltas : gmap string Z) :
  deltas !! t = None → net (<[t := value]> deltas) = value + net deltas.
Proof.
  intros H. unfold net.
  apply (map_fold_insert_L (fun _ v total => v + total)); [|done].
  intros. lia.
Qed.

Lemma net_insert t value (deltas : gmap string Z) :
  net (<[t := value]> deltas) = net deltas - default 0 (deltas !! t) + value.
Proof.
  destruct (deltas !! t) as [old|] eqn:Ht; simpl.
  - rewrite <- (insert_delete_eq deltas t value).
    rewrite <- (insert_delete_id deltas t old Ht) at 2.
    rewrite !net_insert_fresh by apply lookup_delete_eq. lia.
  - rewrite net_insert_fresh by done. lia.
Qed.

Lemma updateDeltas_from_net names : ∀ i deltas amounts deltas',
  updateDeltas_from BigNumber_from i deltas names amounts = (deltas', Returned tt) →
  net deltas' = net deltas + amounts_total BigNumber_from names (drop i amounts).
Proof.
  induction names as [|t0 names IH]; intros i deltas amounts deltas'; simpl.
  - intros [= <-]. unfold amounts_total. simpl. lia.
  - destruct (updateDelta _ deltas t0 (amounts !! i)) as [deltas1 [[]|e]] eqn:H0; [|done].
    intros H. apply IH in H. rewrite H.
    apply updateDelta_Returned in H0 as (a & v & Hi & Ha & ->).
    rewrite (drop_S _ _ _ Hi), net_insert.
    change (amounts_total BigNumber_from (t0 :: names) (a :: drop (S i) amounts))
      with (default 0 (BigNumber_from a)
            + amounts_total BigNumber_from names (drop (S i) amounts)).
    rewrite Ha. simpl. unfold Address in *. lia.
Qed.

(** X8.  When [updateDeltas] returns, the sum of all entries of [deltas]
    has grown by exactly the sum of the amounts merged. *)
Theorem updateDeltas_net deltas names amounts deltas' :
  updateDeltas BigNumber_from deltas names amounts = (deltas', Returned tt) →
  net deltas' = net deltas + amounts_total BigNumber_from names amounts.
Proof. intros H. by apply updateDeltas_from_net in H. Qed.

Lemma updateDeltas_from_dom names : ∀ i deltas amounts deltas',
  updateDeltas_from BigNumber_from i deltas names amounts = (deltas', Returned tt) →
  dom deltas' = dom deltas ∪ list_to_set names.
Proof.
  induction names as [|t0 names IH]; intros i deltas amounts deltas'; simpl.
  - intros [= <-]. by rewrite (right_id_L ∅ (∪)).
  - destruct (updateDelta _ deltas t0 (amounts !! i)) as [deltas1 [[]|e]] eqn:H0; [|done].
    intros H. apply IH in H. rewrite H.
    apply updateDelta_Returned in H0 as (a & v & Hi & Ha & ->).
    rewrite dom_insert_L.
    rewrite (comm_L (∪) {[t0]} (dom deltas)). by rewrite <- (assoc_L (∪)).
Qed.

(** X9.  When [updateDeltas] returns, [deltas] has an entry for each of the
    assets and for each token it had an entry for before, and no other. *)
Theorem updateDeltas_entries deltas names amounts deltas' :
  updateDeltas BigNumber_from deltas names amounts = (deltas', Returned tt) →
  dom deltas' = dom deltas ∪ list_to_set names.
Proof. apply updateDeltas_from_dom. Qed.
End UpdateDeltas.

Lemma updateDeltas_returns_iff_witness :
  (updateDeltas Example.fromDecimal {["B" := 10]} ["A"; "B"] ["1"; "-4"; "2"]).2
  = Returned tt.
Proof.
  apply (proj2 (updateDeltas_returns_iff Example.fromDecimal {["B" := 10]}
                  ["A"; "B"] ["1"; "-4"; "2"])).
  intros [|[|i]] t Hi; simpl in Hi; [| |done]; injection Hi as <-.
  - split; [by right|]. exists "1", 1. split; reflexivity.
  - split; [left; by exists 10|]. exists "-4", (-4). split; reflexivity.
Defined.

Lemma updateDeltas_keeps_other_entries_witness :
  (updateDeltas Example.fromDecimal {["C" := 5]} ["A"; "B"] ["1"]).1 !! "C"
  = ({["C" := 5]} : gmap string Z) !! "C".
Proof.
  apply (updateDeltas_keeps_other_entries Example.fromDecimal {["C" := 5]}
           ["A"; "B"] ["1"] "C").
  intros Hin. apply elem_of_cons in Hin as [Heq|Hin]; [discriminate|].
  apply elem_of_cons in Hin as [Heq|Hin]; [discriminate|].
  by apply elem_of_nil in Hin.
Defined.

Lemma updateDeltas_never_removes_an_entry_witness :
  is_Some ((updateDeltas Example.fromDecimal {["A" := 5]} ["A"; "B"] ["x"]).1 !! "A").
Proof.
  apply (updateDeltas_never_removes_an_entry Example.fromDecimal {["A" := 5]}
           ["A"; "B"] ["x"] "A").
  exists 5. vm_compute. reflexivity.
Defined.

Lemma updateDeltas_order_irrelevant_witness :
  updateDeltas Example.fromDecimal {["B" := 10]}
    [("A", "3"); ("B", "-4"); ("A", "1")].*1 [("A", "3"); ("B", "-4"); ("A", "1")].*2
  = (list_to_map [("A", 4); ("B", 6)], Returned tt).
Proof.
  apply (updateDeltas_order_irrelevant Example.fromDecimal {["B" := 10]}
           [("A", "1"); ("B", "-4"); ("A", "3")]
           [("A", "3"); ("B", "-4"); ("A", "1")]).
  - etrans; [apply perm_skip, perm_swap|].
    etrans; [apply perm_swap|]. apply perm_skip, perm_swap.
  - vm_compute. reflexivity.
Defined.

Lemma updateDeltas_throws_because_witness :
  (TypeError = TypeError ∧
   ∃ t, t ∈ ["A"; "toString"] ∧ inherited t = true ∧ (∅ : gmap string Z) !! t = None) ∨
  (TypeError = InvalidBigNumber ∧
   ∃ i t, ["A"; "toString"] !! i = Some t ∧
          ["1"; "2"] !! i ≫= Example.fromDecimal = None).
Proof.
  eapply (updateDeltas_throws_because Example.fromDecimal ∅ ["A"; "toString"]
            ["1"; "2"]).
  vm_compute. reflexivity.
Defined.

Lemma updateDeltas_net_witness :
  net (list_to_map [("A", 4); ("B", 6)])
  = net {["B" := 10]}
    + amounts_total Example.fromDecimal ["A"; "B"; "A"] ["1"; "-4"; "3"].
Proof.
  apply (updateDeltas_net Example.fromDecimal {["B" := 10]} ["A"; "B"; "A"]
           ["1"; "-4"; "3"]).
  vm_compute. reflexivity.
Defined.

Lemma updateDeltas_entries_witness :
  dom (list_to_map [("A", 4); ("B", 6)] : gmap string Z)
  = dom ({["B" := 10]} : gmap string Z) ∪ list_to_set ["A"; "B"; "A"].
Proof.
  apply (updateDeltas_entries Example.fromDecimal {["B" := 10]} ["A"; "B"; "A"]
           ["1"; "-4"; "3"]).
  vm_compute. reflexivity.
Defined.

(** ** [multicall] *)

Section MulticallFurther.
Variable BigNumber_from : string → option Z.
Variable getPools : nat → option (list Pool).
Variable executor : Executor.

Lemma poolsDictionary_fetches refresh w :
  (fetches w ≤ fetches (poolsDictionary getPools refresh w).1 ≤ S (fetches w))%nat.
Proof.
  unfold poolsDictionary. simpl.
  destruct refresh, (poolsDict (poolsSource (this w))); simpl;
    try destruct (getPools _); simpl; lia.
Qed.

Lemma poolsDictionary_dictionaryRequests refresh w :
  dictionaryRequests (poolsDictionary getPools refresh w).1 = S (dictionaryRequests w).
Proof.
  unfold poolsDictionary. simpl.
  destruct refresh, (poolsDict (poolsSource (this w))); simpl;
    try destruct (getPools _); done.
Qed.

(** X10.  What a call of [multicall] does to the instance and to the data
    service does not depend on the batch, nor on whether a request throws:
    the pool state source is asked for the dictionary exactly once, at most
    one fetch is issued, and the cache is left as a call with the empty
    batch leaves it. *)
Theorem multicall_instance_effect rawCalls refresh w :
  let after := (multicall BigNumber_from getPools executor rawCalls refresh w).1 in
  let empty := (multicall BigNumber_from getPools executor [] refresh w).1 in
  this after = this empty ∧
  fetches after = fetches empty ∧
  (fetches w ≤ fetches after ≤ S (fetches w))%nat ∧
  dictionaryRequests after = S (dictionaryRequests w).
Proof.
  destruct (multicall_world BigNumber_from getPools executor rawCalls refresh w)
    as (Hthis & Hfetches & Hreq).
  destruct (multicall_world BigNumber_from getPools executor [] refresh w)
    as (Hthis0 & Hfetches0 & Hreq0).
  simpl. rewrite Hthis, Hthis0, Hfetches, Hfetches0, Hreq. split_and!; try done.
  - apply (poolsDictionary_fetches _ (set_relayers _ w)).
  - apply (poolsDictionary_fetches _ (set_relayers _ w)).
  - by rewrite poolsDictionary_dictionaryRequests.
Qed.

(** X11.  When the pool state source throws, [multicall] throws the same
    exception before it looks at any request: the result is that of the
    empty batch, and the ledger constructed for the call is still empty. *)
Theorem multicall_without_dictionary rawCalls refresh w e :
  dictionary_obtained getPools refresh w = Thrown e →
  multicall BigNumber_from getPools executor rawCalls refresh w
  = multicall BigNumber_from getPools executor [] refresh w ∧
  (multicall BigNumber_from getPools executor rawCalls refresh w).2 = Thrown e ∧
  relayers (multicall BigNumber_from getPools executor rawCalls refresh w).1
  = relayers w ++ [RelayerModel_new].
Proof.
  rewrite !multicall_steps. unfold dictionary_obtained, new_RelayerModel. simpl.
  pose proof (poolsDictionary_relayers getPools (default false refresh)
                (set_relayers (relayers w ++ [RelayerModel_new]) w)) as Hrel.
  destruct (poolsDictionary _ _ _) as [w1 [pools|e1]]; [done|].
  by intros [= ->].
Qed.

(** X12.  Nothing that follows a throwing request is executed: a batch
    that throws gives the same exception and leaves the same world,
    ledger included, whatever requests are appended to it. *)
Theorem multicall_stops_at_the_failing_request xs ys refresh w e :
  (multicall BigNumber_from getPools executor xs refresh w).2 = Thrown e →
  multicall BigNumber_from getPools executor (xs ++ ys) refresh w
  = multicall BigNumber_from getPools executor xs refresh w.
Proof.
  rewrite !multicall_steps.
  destruct (poolsDictionary _ _ _) as [w1 [pools|e1]]; [|done]. simpl.
  rewrite steps_app.
  by destruct (steps _ _ pools _ _ xs) as [ledger [deltas|e2]].
Qed.

Lemma updated_is_Some deltas tokens amounts deltas' t :
  updated BigNumber_from deltas tokens amounts = Returned deltas' →
  is_Some (deltas !! t) → is_Some (deltas' !! t).
Proof.
  unfold updated, updateDeltas. intros H Ht.
  pose proof (proj2 (updateDeltas_from_frame BigNumber_from tokens 0 deltas amounts)
                t Ht) as Hkeep.
  destruct (updateDeltas_from _ _ _ _ _) as [d [[]|e]]; [|done]. by injection H as <-.
Qed.

Lemma steps_is_Some pools rawCalls : ∀ ledger deltas ledger' deltas' t,
  steps BigNumber_from executor pools ledger deltas rawCalls = (ledger', Returned deltas') →
  is_Some (deltas !! t) → is_Some (deltas' !! t).
Proof.
  induction rawCalls as [|call rest IH]; intros ledger deltas ledger' deltas' t; simpl.
  - by intros [= _ <-].
  - unfold step.
    destruct (run _ ledger) as [ledger1 [[tokens amounts]|e]]; [|done].
    destruct (updated _ deltas tokens amounts) as [deltas1|e] eqn:Hupd; [|done].
    intros H Ht. eapply IH; [done|]. by eapply updated_is_Some.
Qed.

(** X13.  When a batch executes, so does every initial part of it, and
    every token the initial part has an entry for still has one in the
    delta map of the whole batch. *)
Theorem multicall_prefix_executes xs ys refresh w deltas :
  (multicall BigNumber_from getPools executor (xs ++ ys) refresh w).2 = Returned deltas →
  ∃ deltas1,
    (multicall BigNumber_from getPools executor xs refresh w).2 = Returned deltas1 ∧
    ∀ t, is_Some (deltas1 !! t) → is_Some (deltas !! t).
Proof.
  rewrite !multicall_steps.
  destruct (poolsDictionary _ _ _) as [w1 [pools|e1]]; [|done]. simpl.
  rewrite steps_app.
  destruct (steps _ _ pools _ _ xs) as [ledger [deltas1|e2]] eqn:Hxs; [|done].
  destruct (steps _ _ pools ledger deltas1 ys) as [ledger' [deltas'|e2]] eqn:Hys; [|done].
  simpl. intros [= ->]. exists deltas1. split; [done|].
  intros t. by eapply steps_is_Some.
Qed.

(** X14.  The tag each mapping helper sets is the one the dispatch of
    [multicall] tests for: a mapped swap reaches [doSingleSwap] and is
    merged under the [assetOut] and [assetIn] of the descriptor's request,
    a mapped batch swap reaches [doBatchSwap] and is merged under the
    descriptor's assets, a mapped join reaches [doJoin] and a mapped exit
    [doExit]. *)
Theorem mapped_requests_reach_their_operation poolModel pools deltas :
  (∀ call : Swap,
     multicall_body BigNumber_from executor poolModel pools deltas
       (OfSwap (mapSwapRequest call))
     = (swapDeltas ← invoke poolModel
          (doSingleSwap executor (OfSwap (mapSwapRequest call)) pools);
        lift (updated BigNumber_from deltas
                [assetOut (Swap_request call); assetIn (Swap_request call)]
                swapDeltas))) ∧
  (∀ call : EncodeBatchSwapInput,
     multicall_body BigNumber_from executor poolModel pools deltas
       (OfBatchSwap (mapBatchSwapRequest call))
     = (swapDeltas ← invoke poolModel
          (doBatchSwap executor (OfBatchSwap (mapBatchSwapRequest call)) pools);
        lift (updated BigNumber_from deltas (ebs_assets call) swapDeltas))) ∧
  (∀ call : EncodeJoinPoolInput,
     multicall_body BigNumber_from executor poolModel pools deltas
       (OfJoin (mapJoinPoolRequest call))
     = ('(tokens, amounts) ← invoke poolModel
          (doJoin executor (OfJoin (mapJoinPoolRequest call)) pools);
        lift (updated BigNumber_from deltas tokens amounts))) ∧
  (∀ call : EncodeExitPoolInput,
     multicall_body BigNumber_from executor poolModel pools deltas
       (OfExit (mapExitPoolRequest call))
     = ('(tokens, amounts) ← invoke poolModel
          (doExit executor (OfExit (mapExitPoolRequest call)) pools);
        lift (updated BigNumber_from deltas tokens amounts))).
Proof. split_and!; done. Qed.

Lemma steps_plain pools rawCalls : ∀ ledger deltas ledger' deltas',
  steps BigNumber_from executor pools ledger deltas rawCalls = (ledger', Returned deltas') →
  plain deltas → plain deltas'.
Proof.
  induction rawCalls as [|call rest IH]; intros ledger deltas ledger' deltas'; simpl.
  - by intros [= _ <-].
  - unfold step.
    destruct (run _ ledger) as [ledger1 [[tokens amounts]|e]]; [|done].
    destruct (updated _ deltas tokens amounts) as [deltas1|e] eqn:Hupd; [|done].
    intros H Hplain. eapply IH; [done|].
    by destruct (updated_accepted _ _ _ _ _ Hplain Hupd).
Qed.

(** X15.  The delta map [multicall] returns has no entry under a name
    inherited from [Object.prototype]. *)
Theorem multicall_returns_no_inherited_name rawCalls refresh w w' deltas t :
  multicall BigNumber_from getPools executor rawCalls refresh w = (w', Returned deltas) →
  is_Some (deltas !! t) → inherited t = false.
Proof.
  intros H. apply multicall_Returned in H as (pools & ledger & _ & Hsteps & _).
  apply steps_plain in Hsteps; [|apply plain_empty]. apply Hsteps.
Qed.

(** X16.  A batch swap whose turn of the loop completes leaves an entry
    for every asset of the request, touched by a step or not, beside the
    entries there were. *)
Theorem batch_swap_enters_every_asset poolModel pools deltas b w w' deltas' :
  batch_actionType b = ActionType.BatchSwap →
  multicall_body BigNumber_from executor poolModel pools deltas (OfBatchSwap b) w
    = (w', Returned deltas') →
  dom deltas' = dom deltas ∪ list_to_set (batch_assets b).
Proof.
  intros Htag. unfold multicall_body. simpl. rewrite Htag. simpl.
  unfold mbind, Action_bind.
  destruct (invoke _ _ w) as [w1 [swapDeltas|e]]; [|done].
  unfold lift, updated, updateDeltas.
  destruct (updateDeltas_from _ _ _ _ _) as [d [[]|e]] eqn:Hupd; [|done].
  intros [= _ <-]. by eapply updateDeltas_from_dom.
Qed.

Lemma contributions_replayed pools final rawCalls : ∀ ledger deltas ledger' deltas',
  steps BigNumber_from executor pools ledger deltas rawCalls = (ledger', Returned deltas') →
  ledger' ⊆ final →
  contributions executor pools ledger rawCalls = replayed executor pools final <$> rawCalls.
Proof.
  induction rawCalls as [|call rest IH]; intros ledger deltas ledger' deltas'; simpl; [done|].
  unfold step.
  destruct (run _ ledger) as [ledger1 [c|e]] eqn:Hrun; [|done].
  destruct c as [tokens amounts].
  destruct (updated _ deltas tokens amounts) as [deltas1|e] eqn:Hupd; [|done].
  intros Hrest Hfinal.
  pose proof (steps_mono _ _ _ _ _ _ _ _ Hrest) as Hmono.
  assert (ledger1 ⊆ final) as H1 by by etrans.
  destruct (run_replay _ final _ _ _ Hrun H1) as (Hreplay & _).
  f_equal; [|by eapply IH].
  unfold replayed. by rewrite Hreplay.
Qed.

Lemma existsb_Permutation {T} (f : T → bool) (l l' : list T) :
  l ≡ₚ l' → existsb f l = existsb f l'.
Proof.
  induction 1 as [|x l l' _ IH|x y l|l l' l'' _ IH1 _ IH2]; simpl.
  - done.
  - by rewrite IH.
  - destruct (f x), (f y); done.
  - by rewrite IH1.
Qed.

Lemma total_for_Permutation t (cs cs' : list (list Address * list string)) :
  cs ≡ₚ cs' → total_for BigNumber_from t cs = total_for BigNumber_from t cs'.
Proof.
  induction 1 as [|x l l' _ IH|x y l|l l' l'' _ IH1 _ IH2]; simpl;
    fold (total_for BigNumber_from t); lia.
Qed.

(** X17.  The delta map does not depend on the order of the requests: when
    a batch and a reordering of it both execute, [multicall] returns the
    same delta map for both. *)
Theorem multicall_deltas_do_not_depend_on_order
    rawCalls reordered refresh w w1 w2 deltas1 deltas2 :
  rawCalls ≡ₚ reordered →
  multicall BigNumber_from getPools executor rawCalls refresh w = (w1, Returned deltas1) →
  multicall BigNumber_from getPools executor reordered refresh w = (w2, Returned deltas2) →
  deltas1 = deltas2.
Proof.
  intros Hperm H1 H2.
  apply multicall_Returned in H1 as (pools & final & Hpools & Hsteps1 & _).
  apply multicall_Returned in H2 as (pools' & final' & Hpools' & Hsteps2 & _).
  rewrite Hpools in Hpools'. injection Hpools' as <-.
  destruct (steps_replayable BigNumber_from executor pools final rawCalls _ _ _ _ Hsteps1)
    as (Hgood & Hnd & _); [done|apply plain_empty|].
  assert (final' ⊆ final) as Hsub.
  { destruct (steps_replayed BigNumber_from executor pools final reordered
                RelayerModel_new ∅)
      as [(ledger & deltas & Hrun & Hsub & _)|(ledger & unset & Hstop)].
    - by rewrite <- Hperm.
    - by rewrite <- Hperm.
    - done.
    - apply map_empty_subseteq.
    - apply plain_empty.
    - rewrite Hsteps2 in Hrun. by injection Hrun as -> _.
    - rewrite Hsteps2 in Hstop. done. }
  pose proof (contributions_replayed pools final _ _ _ _ _ Hsteps1 (reflexivity _)) as Hc1.
  pose proof (contributions_replayed pools final _ _ _ _ _ Hsteps2 Hsub) as Hc2.
  apply steps_accumulate in Hsteps1 as [_ Hd1], Hsteps2 as [_ Hd2].
  apply map_eq. intros t.
  etrans; [exact (Hd1 t)|]. symmetry. etrans; [exact (Hd2 t)|]. rewrite Hc1, Hc2.
  assert (replayed executor pools final <$> rawCalls
          ≡ₚ replayed executor pools final <$> reordered) as Hcs by by rewrite Hperm.
  by rewrite <- (existsb_Permutation _ _ _ Hcs), <- (total_for_Permutation t _ _ Hcs).
Qed.
End MulticallFurther.

Lemma multicall_without_dictionary_witness :
  Example.run_multicall Example.offline [Example.join "P1" "10" "r1"] None World_new
  = Example.run_multicall Example.offline [] None World_new ∧
  (Example.run_multicall Example.offline [Example.join "P1" "10" "r1"] None
     World_new).2 = Thrown DataSourceError ∧
  relayers (Example.run_multicall Example.offline [Example.join "P1" "10" "r1"] None
              World_new).1
  = relayers World_new ++ [RelayerModel_new].
Proof.
  apply (multicall_without_dictionary Example.fromDecimal Example.offline
           Example.poolModel [Example.join "P1" "10" "r1"] None World_new
           DataSourceError).
  vm_compute. reflexivity.
Defined.

Lemma multicall_stops_at_the_failing_request_witness :
  Example.run_multicall Example.online
    ([Example.join "P1" "10" "r1"; Example.join "P9" "10" "r2"]
       ++ [Example.swap ActionType.Swap "P1" "A" "B" (Known 7) "r3"])
    None World_new
  = Example.run_multicall Example.online
      [Example.join "P1" "10" "r1"; Example.join "P9" "10" "r2"] None World_new.
Proof.
  apply (multicall_stops_at_the_failing_request Example.fromDecimal Example.online
           Example.poolModel
           [Example.join "P1" "10" "r1"; Example.join "P9" "10" "r2"]
           [Example.swap ActionType.Swap "P1" "A" "B" (Known 7) "r3"]
           None World_new (PoolNotFoundError "P9")).
  vm_compute. reflexivity.
Defined.

Lemma multicall_prefix_executes_witness :
  ∃ deltas1,
    (Example.run_multicall Example.online
       [Example.swap ActionType.Swap "P1" "A" "B" (Known 7) "r1"] None World_new).2
    = Returned deltas1 ∧
    ∀ t, is_Some (deltas1 !! t) →
         is_Some ((list_to_map [("A", -7); ("B", 0); ("C", 7)] : gmap string Z) !! t).
Proof.
  apply (multicall_prefix_executes Example.fromDecimal Example.online Example.poolModel
           [Example.swap ActionType.Swap "P1" "A" "B" (Known 7) "r1"]
           [Example.swap ActionType.Swap "P2" "B" "C" (Chained "r1") "r2"]
           None World_new).
  vm_compute. reflexivity.
Defined.

Lemma multicall_returns_no_inherited_name_witness : inherited "A" = false.
Proof.
  eapply (multicall_returns_no_inherited_name Example.fromDecimal Example.online
            Example.poolModel
            [Example.swap ActionType.Swap "P1" "A" "B" (Known 7) "r1"]
            None World_new _ (list_to_map [("B", 7); ("A", -7)]) "A").
  - vm_compute. reflexivity.
  - exists (-7). vm_compute. reflexivity.
Defined.

Lemma batch_swap_enters_every_asset_witness :
  dom (list_to_map [("A", -7); ("B", 7); ("C", 0)] : gmap string Z)
  = dom (∅ : gmap string Z) ∪ list_to_set ["A"; "B"; "C"].
Proof.
  eapply (batch_swap_enters_every_asset Example.fromDecimal Example.poolModel
            (new_PoolModel 0) (toDictionary [Example.P1; Example.P2]) ∅
            {| batch_actionType := ActionType.BatchSwap;
               batch_swaps := [{| step_poolId := "P1"; assetInIndex := 0;
                                  assetOutIndex := 1; step_amount := Known 7 |}];
               batch_assets := ["A"; "B"; "C"];
               batch_funds := Example.funds;
               batch_swapType := SwapExactIn;
               batch_outputReferences := ["a"; "b"; "c"] |}
            (set_relayers [RelayerModel_new] World_new)).
  - reflexivity.
  - vm_compute. reflexivity.
Defined.

Lemma multicall_deltas_do_not_depend_on_order_witness :
  (list_to_map [("A", -17); ("B", -3); ("BPT1", 20)] : gmap string Z)
  = list_to_map [("BPT1", 20); ("B", -3); ("A", -17)].
Proof.
  eapply (multicall_deltas_do_not_depend_on_order Example.fromDecimal Example.online
            Example.poolModel
            [Example.swap ActionType.Swap "P1" "A" "B" (Known 7) "r1";
             Example.join "P1" "10" "r2"]
            [Example.join "P1" "10" "r2";
             Example.swap ActionType.Swap "P1" "A" "B" (Known 7) "r1"]
            None World_new).
  - apply perm_swap.
  - vm_compute. reflexivity.
  - vm_compute. reflexivity.
Defined.
